(** * The dqlite wire client: framing, call serialisation and heartbeat

    A shallow embedding of [internal/client/client.go].  The connection is an
    external object, so every function of the client is embedded as a program
    tree ([prog]) whose nodes are the operations the Go code performs on the
    connection and on the client's mutex.  A tree is then given meaning
    either sequentially ([run], one caller) or by an interleaving step
    relation ([step], several goroutines). *)

From Stdlib Require Import ZArith List Strings.Byte Bool Arith Lia.
From Stdlib Require Strings.String.
Import ListNotations String.StringSyntax.
Abbreviation string := String.string.
Local Open Scope string_scope.
Local Open Scope list_scope.
Local Open Scope Z_scope.

Set Implicit Arguments.

(** ** Machine integers and bytes *)

Definition byte_val (b : byte) : Z := Z.of_N (Byte.to_N b).

(** Go's [int] on a 64-bit platform: two's complement wrap-around. *)
Definition wrap_int (z : Z) : Z := (z + 2 ^ 63) mod 2 ^ 64 - 2 ^ 63.
Definition wrap_uint32 (z : Z) : Z := z mod 2 ^ 32.
Definition wrap_uint16 (z : Z) : Z := z mod 2 ^ 16.

(** ** Errors and panics *)

(** [io.ErrShortWrite], [io.ErrNoProgress], an error produced by the
    connection, and [errors.Wrap cause msg]. *)
Inductive error : Type :=
| ErrShortWrite
| ErrNoProgress
| ErrTransport (msg : string)
| Wrap (cause : error) (msg : string).

(** [err.Error()] as github.com/pkg/errors renders a wrapped error. *)
Fixpoint error_message (e : error) : string :=
  match e with
  | ErrShortWrite => "short write"
  | ErrNoProgress => "multiple Read calls return no data or error"
  | ErrTransport msg => msg
  | Wrap cause msg => String.append msg (String.append ": " (error_message cause))
  end.

(** The innermost error of a chain of wraps ([errors.Cause]). *)
Fixpoint Cause (e : error) : error :=
  match e with
  | Wrap cause _ => Cause cause
  | _ => e
  end.

Inductive panic : Type :=
| errNegativeRead
| SliceBoundsOutOfRange
| IndexOutOfRange
| UnlockOfUnlockedMutex.

(** ** Slices

    A byte slice is the list of its elements; the slices of a [Message] are
    made by [make] in [Init], so their capacity is their length. *)

(** [s[:n]] *)
Definition slice_to (s : list byte) (n : Z) : option (list byte) :=
  if (0 <=? n) && (n <=? Z.of_nat (length s))
  then Some (firstn (Z.to_nat n) s) else None.

(** [s[n:]] *)
Definition slice_from (s : list byte) (n : Z) : option (list byte) :=
  if (0 <=? n) && (n <=? Z.of_nat (length s))
  then Some (skipn (Z.to_nat n) s) else None.

(** What a callee's writes through a slice [sub] of [s] starting at [off]
    leave in [s]: the elements before [off] and after the slice are kept. *)
Definition write_back (s : list byte) (off : nat) (sub : list byte) : list byte :=
  firstn off s ++ sub ++ skipn (off + length sub) s.

(** A read stores [data] at the start of [buf]; it cannot reach past it. *)
Definition overwrite (buf data : list byte) : list byte :=
  write_back buf 0 (firstn (length buf) data).

(** [binary.LittleEndian.Uint32] and [Uint16]; [None] is the index panic. *)
Definition Uint32 (b : list byte) : option Z :=
  match b with
  | b0 :: b1 :: b2 :: b3 :: _ =>
      Some (Z.lor (Z.lor (Z.lor (byte_val b0)
                                (wrap_uint32 (Z.shiftl (byte_val b1) 8)))
                         (wrap_uint32 (Z.shiftl (byte_val b2) 16)))
                  (wrap_uint32 (Z.shiftl (byte_val b3) 24)))
  | _ => None
  end.

Definition Uint16 (b : list byte) : option Z :=
  match b with
  | b0 :: b1 :: _ =>
      Some (Z.lor (byte_val b0) (wrap_uint16 (Z.shiftl (byte_val b1) 8)))
  | _ => None
  end.

(** ** Messages *)

(** Modelled from the spec: the constants of the message layout, declared
    with the [Message] type outside this file.  The header is exactly 8
    bytes and a word is 8 bytes. *)
Definition messageHeaderSize : Z := 8.
Definition messageWordSize : Z := 8.

(** Modelled from the spec: the [buffer] and [Message] types, declared
    outside this file.  [Bytes = None] is the nil slice; [Offset] counts the
    valid bytes. *)
Record buffer : Type := mkBuffer {
  Bytes : option (list byte);
  Offset : Z
}.

Record Message : Type := mkMessage {
  words : Z;            (* uint32 *)
  mtype : byte;         (* uint8 *)
  flags : byte;         (* uint8 *)
  extra : Z;            (* uint16 *)
  header : list byte;   (* []byte of messageHeaderSize elements *)
  body1 : buffer;       (* statically allocated body *)
  body2 : buffer        (* dynamically allocated body *)
}.

Definition elems (b : option (list byte)) : list byte :=
  match b with Some l => l | None => [] end.

Definition set_header (m : Message) (h : list byte) : Message :=
  mkMessage (words m) (mtype m) (flags m) (extra m) h (body1 m) (body2 m).

Definition set_fields (m : Message) (w : Z) (t f : byte) (x : Z) : Message :=
  mkMessage w t f x (header m) (body1 m) (body2 m).

Definition set_body1_bytes (m : Message) (l : list byte) : Message :=
  mkMessage (words m) (mtype m) (flags m) (extra m) (header m)
    (mkBuffer (match Bytes (body1 m) with Some _ => Some l | None => None end)
              (Offset (body1 m)))
    (body2 m).

(** Modelled from the spec: [Message.Init], declared outside this file:
    allocates the header and a primary body of [staticSize] bytes, clears
    the fields and the offsets, and leaves the overflow buffer nil. *)
Definition Init (staticSize : nat) : Message :=
  mkMessage 0 x00 x00 0
    (repeat x00 (Z.to_nat messageHeaderSize))
    (mkBuffer (Some (repeat x00 staticSize)) 0)
    (mkBuffer None 0).

(** ** Programs over the connection and the mutex *)

(** What [conn.Read(p)] hands back: the count [n] it reports, the bytes it
    stored at the start of [p], and its error. *)
Record read_result : Type := mkRead {
  rd_n : Z;
  rd_data : list byte;
  rd_err : option error
}.

(** What [conn.Write(p)] hands back. *)
Record write_result : Type := mkWrite {
  wr_n : Z;
  wr_err : option error
}.

Inductive prog (A : Type) : Type :=
| Ret (a : A)
| Panic (p : panic)
| Diverge
| MuLock (k : prog A)
| MuUnlock (k : prog A)
| ConnWrite (data : list byte) (k : write_result -> prog A)
| ConnRead (len : nat) (k : read_result -> prog A).

Arguments Panic {A} p.
Arguments Diverge {A}.

Fixpoint bind {A B : Type} (p : prog A) (f : A -> prog B) : prog B :=
  match p with
  | Ret a => f a
  | Panic x => Panic x
  | Diverge => Diverge
  | MuLock k => MuLock (bind k f)
  | MuUnlock k => MuUnlock (bind k f)
  | ConnWrite d k => ConnWrite d (fun r => bind (k r) f)
  | ConnRead n k => ConnRead n (fun r => bind (k r) f)
  end.

Notation "x <- p ;; q" := (bind p (fun x => q))
  (at level 61, p at next level, right associativity).
Notation "' pat <- p ;; q" := (bind p (fun x => match x with pat => q end))
  (at level 61, pat pattern, p at next level, right associativity).

(** [defer c.mu.Unlock()]: the unlock runs when the body returns and also
    when it panics. *)
Fixpoint defer_Unlock {A : Type} (p : prog A) : prog A :=
  match p with
  | Ret a => MuUnlock (Ret a)
  | Panic x => MuUnlock (Panic x)
  | Diverge => Diverge
  | MuLock k => MuLock (defer_Unlock k)
  | MuUnlock k => MuUnlock (defer_Unlock k)
  | ConnWrite d k => ConnWrite d (fun r => defer_Unlock (k r))
  | ConnRead n k => ConnRead n (fun r => defer_Unlock (k r))
  end.

(** ** The client *)

Section Client.

(** The bound on consecutive empty reads, a constant declared outside this
    file. *)
Variable messageMaxConsecutiveEmptyReads : nat.

Definition sendHeader (req : Message) : prog (option error) :=
  ConnWrite (header req) (fun r =>
    match wr_err r with
    | Some err => Ret (Some (Wrap err "failed to send header"))
    | None =>
        if negb (wr_n r =? messageHeaderSize)
        then Ret (Some (Wrap ErrShortWrite "failed to send header"))
        else Ret None
    end).

Definition sendBody (req : Message) : prog (option error) :=
  match slice_to (elems (Bytes (body1 req))) (Offset (body1 req)) with
  | None => Panic SliceBoundsOutOfRange
  | Some buf =>
    ConnWrite buf (fun r =>
      match wr_err r with
      | Some err => Ret (Some (Wrap err "failed to send static body"))
      | None =>
        if negb (wr_n r =? Z.of_nat (length buf))
        then Ret (Some (Wrap ErrShortWrite "failed to write body"))
        else
          match Bytes (body2 req) with
          | None => Ret None
          | Some bytes2 =>
            match slice_to bytes2 (Offset (body2 req)) with
            | None => Panic SliceBoundsOutOfRange
            | Some buf2 =>
              ConnWrite buf2 (fun r2 =>
                match wr_err r2 with
                | Some err => Ret (Some (Wrap err "failed to send dynamic body"))
                | None =>
                  if negb (wr_n r2 =? Z.of_nat (length buf2))
                  then Ret (Some (Wrap ErrShortWrite "failed to write body"))
                  else Ret None
                end)
            end
          end
      end)
  end.

Definition send (req : Message) : prog (option error) :=
  err <- sendHeader req ;;
  match err with
  | Some e => Ret (Some (Wrap e "failed to send header"))
  | None =>
    err2 <- sendBody req ;;
    match err2 with
    | Some e => Ret (Some (Wrap e "failed to send body"))
    | None => Ret None
    end
  end.

(** [recvFill]: the loop counter [i] runs from the bound down to 1.  The
    result carries the contents of [buf] after the reads. *)
Fixpoint recvFill_loop (i : nat) (buf : list byte)
  : prog (list byte * (Z * option error)) :=
  match i with
  | O => Ret (buf, (-1, Some ErrNoProgress))
  | S i' =>
    ConnRead (length buf) (fun r =>
      let buf' := overwrite buf (rd_data r) in
      if rd_n r <? 0 then Panic errNegativeRead
      else match rd_err r with
           | Some err => Ret (buf', (-1, Some err))
           | None =>
             if 0 <? rd_n r then Ret (buf', (rd_n r, None))
             else recvFill_loop i' buf'
           end)
  end.

Definition recvFill (buf : list byte) : prog (list byte * (Z * option error)) :=
  recvFill_loop messageMaxConsecutiveEmptyReads buf.

(** [recvPeek]: [for offset := 0; offset < len(buf); { ... }].  The loop has
    no counter of its own; [fuel] bounds its iterations and [Diverge] marks
    an exhausted budget. *)
Fixpoint recvPeek_loop (fuel : nat) (buf : list byte) (offset : Z)
  : prog (list byte * option error) :=
  match fuel with
  | O => if offset <? Z.of_nat (length buf) then Diverge else Ret (buf, None)
  | S fuel' =>
    if offset <? Z.of_nat (length buf) then
      match slice_from buf offset with
      | None => Panic SliceBoundsOutOfRange
      | Some sub =>
        '(sub', (n, err)) <- recvFill sub ;;
        let buf' := write_back buf (Z.to_nat offset) sub' in
        match err with
        | Some e => Ret (buf', Some e)
        | None => recvPeek_loop fuel' buf' (wrap_int (offset + n))
        end
      end
    else Ret (buf, None)
  end.

Definition recvPeek (buf : list byte) : prog (list byte * option error) :=
  recvPeek_loop (S (length buf)) buf 0.

Definition recvHeader (res : Message) : prog (Message * option error) :=
  '(h, err) <- recvPeek (header res) ;;
  let res1 := set_header res h in
  match err with
  | Some e => Ret (res1, Some (Wrap e "failed to receive header"))
  | None =>
    match Uint32 h with
    | None => Panic IndexOutOfRange
    | Some w =>
      match nth_error h 4 with
      | None => Panic IndexOutOfRange
      | Some t =>
        match nth_error h 5 with
        | None => Panic IndexOutOfRange
        | Some f =>
          match slice_from h 6 with
          | None => Panic SliceBoundsOutOfRange
          | Some tl =>
            match Uint16 tl with
            | None => Panic IndexOutOfRange
            | Some x => Ret (set_fields res1 w t f x, None)
            end
          end
        end
      end
    end
  end.

Definition recvBody (res : Message) : prog (Message * option error) :=
  let n := wrap_int (wrap_int (words res) * messageWordSize) in
  match slice_to (elems (Bytes (body1 res))) n with
  | None => Panic SliceBoundsOutOfRange
  | Some buf =>
    '(buf', err) <- recvPeek buf ;;
    let res1 := set_body1_bytes res (write_back (elems (Bytes (body1 res))) 0 buf') in
    match err with
    | Some e => Ret (res1, Some (Wrap e "failed to read body"))
    | None => Ret (res1, None)
    end
  end.

Definition recv (res : Message) : prog (Message * option error) :=
  '(res1, err) <- recvHeader res ;;
  match err with
  | Some e => Ret (res1, Some (Wrap e "failed to receive header"))
  | None =>
    '(res2, err2) <- recvBody res1 ;;
    match err2 with
    | Some e => Ret (res2, Some (Wrap e "failed to receive body"))
    | None => Ret (res2, None)
    end
  end.

(** [context.Context], as far as a caller can tell two of them apart. *)
Record Context : Type := mkContext {
  ctx_deadline : option Z;
  ctx_cancelled : bool
}.

(** The body of [Call] between the lock and the deferred unlock. *)
Definition Call_body (request response : Message) : prog (Message * option error) :=
  err <- send request ;;
  match err with
  | Some e => Ret (response, Some (Wrap e "failed to send request"))
  | None =>
    '(res, err2) <- recv response ;;
    match err2 with
    | Some e => Ret (res, Some (Wrap e "failed to receive response"))
    | None => Ret (res, None)
    end
  end.

Definition Call (ctx : Context) (request response : Message)
  : prog (Message * option error) :=
  MuLock (defer_Unlock (Call_body request response)).

End Client.

(** ** Running a program on a connection, one caller *)

(** The operations performed on the connection, in the order performed. *)
Inductive event : Type :=
| EvWrite (data : list byte) (r : write_result)
| EvRead (len : nat) (r : read_result).

Inductive outcome (A : Type) : Type :=
| Returned (a : A)
| Panicked (p : panic)
| Blocked
| Diverged.

Arguments Panicked {A} p.
Arguments Blocked {A}.
Arguments Diverged {A}.

Section Run.

Variable Conn : Type.
Variable conn_Read : Conn -> nat -> read_result * Conn.
Variable conn_Write : Conn -> list byte -> write_result * Conn.

(** The client's mutex, the connection, and the operations seen so far. *)
Record World : Type := mkWorld {
  mu : bool;
  conn : Conn;
  trace : list event
}.

Fixpoint run {A : Type} (p : prog A) (w : World) : outcome A * World :=
  match p with
  | Ret a => (Returned a, w)
  | Panic x => (Panicked x, w)
  | Diverge => (Diverged, w)
  | MuLock k =>
      if mu w then (Blocked, w)
      else run k (mkWorld true (conn w) (trace w))
  | MuUnlock k =>
      if mu w then run k (mkWorld false (conn w) (trace w))
      else (Panicked UnlockOfUnlockedMutex, w)
  | ConnWrite d k =>
      let (r, c) := conn_Write (conn w) d in
      run (k r) (mkWorld (mu w) c (trace w ++ [EvWrite d r]))
  | ConnRead n k =>
      let (r, c) := conn_Read (conn w) n in
      run (k r) (mkWorld (mu w) c (trace w ++ [EvRead n r]))
  end.

End Run.

Arguments mkWorld {Conn} mu conn trace.

(** The world with the client's mutex taken, and released. *)
Definition locked {Conn : Type} (w : World Conn) : World Conn :=
  mkWorld true (conn w) (trace w).

Definition unlocked {Conn : Type} (w : World Conn) : World Conn :=
  mkWorld false (conn w) (trace w).

(** ** The wire layout of the header, in the spec's words *)

(** The unsigned little-endian integer held by a byte string. *)
Fixpoint le_uint (bs : list byte) : Z :=
  match bs with
  | [] => 0
  | b :: rest => byte_val b + 256 * le_uint rest
  end.

(** ** Scripted connections, for concrete runs *)

(** A connection that answers its reads and writes from two scripts; once a
    script is used up, reads report end of file and writes accept all. *)
Definition script : Type := (list read_result * list write_result)%type.

Definition script_Read (c : script) (len : nat) : read_result * script :=
  match fst c with
  | r :: rest => (r, (rest, snd c))
  | [] => (mkRead 0 [] (Some (ErrTransport "EOF")), c)
  end.

Definition script_Write (c : script) (data : list byte) : write_result * script :=
  match snd c with
  | r :: rest => (r, (fst c, rest))
  | [] => (mkWrite (Z.of_nat (length data)) None, c)
  end.

(** A well-behaved read of [data]: reports its length and no error. *)
Definition reads (data : list byte) : read_result :=
  mkRead (Z.of_nat (length data)) data None.

(** ** The phases of a call *)

Inductive phase : Type := SendHeader | SendBody | RecvHeader | RecvBody.

(** The error [Call] returns when the step of phase [ph] returned [inner]. *)
Definition phase_error (ph : phase) (inner : error) : error :=
  match ph with
  | SendHeader => Wrap (Wrap inner "failed to send header") "failed to send request"
  | SendBody => Wrap (Wrap inner "failed to send body") "failed to send request"
  | RecvHeader =>
      Wrap (Wrap inner "failed to receive header") "failed to receive response"
  | RecvBody =>
      Wrap (Wrap inner "failed to receive body") "failed to receive response"
  end.

Definition phase_prefix (ph : phase) : string :=
  match ph with
  | SendHeader => "failed to send request: failed to send header: "
  | SendBody => "failed to send request: failed to send body: "
  | RecvHeader => "failed to receive response: failed to receive header: "
  | RecvBody => "failed to receive response: failed to receive body: "
  end.

Section Phases.

Variable messageMaxConsecutiveEmptyReads : nat.
Variable Conn : Type.
Variable conn_Read : Conn -> nat -> read_result * Conn.
Variable conn_Write : Conn -> list byte -> write_result * Conn.

(** Starting from [w0], the steps before phase [ph] succeed and the step of
    phase [ph] returns the error [inner]. *)
Definition phase_failed (request response : Message) (w0 : World Conn)
    (ph : phase) (inner : error) : Prop :=
  match ph with
  | SendHeader =>
      exists wa,
        run conn_Read conn_Write (sendHeader request) w0
          = (Returned (Some inner), wa)
  | SendBody =>
      exists wa wb,
        run conn_Read conn_Write (sendHeader request) w0 = (Returned None, wa) /\
        run conn_Read conn_Write (sendBody request) wa
          = (Returned (Some inner), wb)
  | RecvHeader =>
      exists wa wb res1,
        run conn_Read conn_Write (send request) w0 = (Returned None, wa) /\
        run conn_Read conn_Write
            (recvHeader messageMaxConsecutiveEmptyReads response) wa
          = (Returned (res1, Some inner), wb)
  | RecvBody =>
      exists wa wb wc res1 res2,
        run conn_Read conn_Write (send request) w0 = (Returned None, wa) /\
        run conn_Read conn_Write
            (recvHeader messageMaxConsecutiveEmptyReads response) wa
          = (Returned (res1, None), wb) /\
        run conn_Read conn_Write
            (recvBody messageMaxConsecutiveEmptyReads res1) wb
          = (Returned (res2, Some inner), wc)
  end.

End Phases.

(** ** Several goroutines on one client *)

Definition tid : Type := nat.

Section Goroutines.

Variable Conn : Type.
Variable conn_Read : Conn -> nat -> read_result * Conn.
Variable conn_Write : Conn -> list byte -> write_result * Conn.
Variable A : Type.

(** The shared mutex and connection, the operations on the wire tagged
    with the goroutine that performed them, and what each goroutine has
    left to run. *)
Record Machine : Type := mkMachine {
  m_mu : bool;
  m_conn : Conn;
  m_trace : list (tid * event);
  m_pool : tid -> prog A
}.

Definition upd (pool : tid -> prog A) (t : tid) (p : prog A) : tid -> prog A :=
  fun t' => if Nat.eqb t' t then p else pool t'.

(** One scheduling step: some goroutine performs its next operation.
    [Lock] is enabled only while the mutex is free.  A goroutine that has
    returned or panicked takes no step. *)
Inductive step : Machine -> Machine -> Prop :=
| step_Lock m t k :
    m_pool m t = MuLock k -> m_mu m = false ->
    step m (mkMachine true (m_conn m) (m_trace m) (upd (m_pool m) t k))
| step_Unlock m t k :
    m_pool m t = MuUnlock k -> m_mu m = true ->
    step m (mkMachine false (m_conn m) (m_trace m) (upd (m_pool m) t k))
| step_Write m t d k r c :
    m_pool m t = ConnWrite d k -> conn_Write (m_conn m) d = (r, c) ->
    step m (mkMachine (m_mu m) c (m_trace m ++ [(t, EvWrite d r)])
                      (upd (m_pool m) t (k r)))
| step_Read m t n k r c :
    m_pool m t = ConnRead n k -> conn_Read (m_conn m) n = (r, c) ->
    step m (mkMachine (m_mu m) c (m_trace m ++ [(t, EvRead n r)])
                      (upd (m_pool m) t (k r))).

Inductive steps : Machine -> Machine -> Prop :=
| steps_refl m : steps m m
| steps_snoc m1 m2 m3 : steps m1 m2 -> step m2 m3 -> steps m1 m3.

End Goroutines.



(** The goroutine of the last operation on the wire. *)
Definition last_tid (tr : list (tid * event)) : option tid :=
  last (map (fun x => Some (fst x)) tr) None.

(** A wire trace in which every goroutine's operations form one block: each
    new operation either continues the last block or starts the block of a
    goroutine not seen before. *)
Inductive serial : list (tid * event) -> Prop :=
| serial_nil : serial []
| serial_same tr t e :
    serial tr -> last_tid tr = Some t -> serial (tr ++ [(t, e)])
| serial_new tr t e :
    serial tr -> ~ In t (map fst tr) -> serial (tr ++ [(t, e)]).

(** ** The heartbeat loop *)

Inductive hb_event : Type :=
| HbCall
| HbDecode
| HbSet (addresses : list string).

Section Heartbeat.

Variable messageMaxConsecutiveEmptyReads : nat.
Variable Conn : Type.
Variable conn_Read : Conn -> nat -> read_result * Conn.
Variable conn_Write : Conn -> list byte -> write_result * Conn.

(** The collaborators, declared outside this file. *)
Variable EncodeHeartbeat : Message -> Z -> Message.
Variable DecodeServers : Message -> Message * (list string + error).
Variable Store : Type.
Variable store_Set : Store -> Context -> list string -> option error * Store.

(** The environment at the [i]-th pass of the loop: whether [closeCh] is
    closed when polled, and the Unix time. *)
Variable closed : nat -> bool.
Variable now : nat -> Z.

Record HbState : Type := mkHb {
  hb_request : Message;
  hb_response : Message;
  hb_world : World Conn;
  hb_store : Store;
  hb_log : list hb_event
}.

Inductive tick : Type :=
| Continue (s : HbState)
| Stop (s : HbState)
| Crash (p : panic) (s : HbState)
| Hang (s : HbState).

Definition log_of (t : tick) : list hb_event :=
  match t with
  | Continue s | Stop s | Crash _ s | Hang s => hb_log s
  end.

Definition wrap_uint64 (z : Z) : Z := z mod 2 ^ 64.

(** One pass of the [for] loop of [heartbeat]. *)
Definition heartbeat_iter (i : nat) (s : HbState) : tick :=
  if closed i then Stop s
  else
    let ctx := mkContext (Some (now i + 1)) false in
    let request := EncodeHeartbeat (hb_request s) (wrap_uint64 (now i)) in
    let log1 := hb_log s ++ [HbCall] in
    match run conn_Read conn_Write
              (Call messageMaxConsecutiveEmptyReads ctx request (hb_response s))
              (hb_world s) with
    | (Returned (response, err), w) =>
      (* cancel() *)
      let ctx := mkContext (ctx_deadline ctx) true in
      match err with
      | Some _ => Stop (mkHb request response w (hb_store s) log1)
      | None =>
        let (response1, decoded) := DecodeServers response in
        let log2 := log1 ++ [HbDecode] in
        match decoded with
        | inr _ => Stop (mkHb request response1 w (hb_store s) log2)
        | inl addresses =>
          let (err1, store1) := store_Set (hb_store s) ctx addresses in
          let log3 := log2 ++ [HbSet addresses] in
          match err1 with
          | Some _ => Stop (mkHb request response1 w store1 log3)
          | None => Continue (mkHb request response1 w store1 log3)
          end
        end
      end
    | (Panicked x, w) =>
        Crash x (mkHb request (hb_response s) w (hb_store s) log1)
    | (Blocked, w) | (Diverged, w) =>
        Hang (mkHb request (hb_response s) w (hb_store s) log1)
    end.

(** The loop, for at most [fuel] passes; [Continue] is a loop that is still
    running when the budget ends. *)
Fixpoint heartbeat_loop (fuel : nat) (i : nat) (s : HbState) : tick :=
  match fuel with
  | O => Continue s
  | S fuel' =>
    match heartbeat_iter i s with
    | Continue s1 => heartbeat_loop fuel' (S i) s1
    | t => t
    end
  end.

Definition heartbeat (fuel : nat) (c : Conn) (st : Store) : tick :=
  heartbeat_loop fuel 0 (mkHb (Init 16) (Init 512) (mkWorld false c []) st []).

End Heartbeat.

(** ** Concrete connections and collaborators *)

(** A well-behaved byte stream: a read hands over at most [k] of the bytes
    still to come, and reports end of file once none is left. *)
Definition chunk_Read (k : nat) (st : list byte) (len : nat)
  : read_result * list byte :=
  let data := firstn (Nat.min k len) st in
  (mkRead (Z.of_nat (length data)) data
          (match st with [] => Some (ErrTransport "EOF") | _ => None end),
   skipn (length data) st).

(** An endless stream that hands over one byte per read. *)
Definition ticker_Read (st : nat) (len : nat) : read_result * nat :=
  match len with
  | O => (mkRead 0 [] None, st)
  | S _ => (mkRead 1 ["*"%byte] None, S st)
  end.

(** A stream whose reads all return no bytes and no error. *)
Definition idle_Read (st : unit) (len : nat) : read_result * unit :=
  (mkRead 0 [] None, st).

(** A connection that accepts every write in full. *)
Definition accept_Write {S : Type} (st : S) (data : list byte)
  : write_result * S :=
  (mkWrite (Z.of_nat (length data)) None, st).

(** A header announcing two words of body, of type 5. *)
Definition example_header : list byte :=
  [x02; x00; x00; x00; x05; x00; x00; x00].

Definition example_body : list byte :=
  [x01; x02; x03; x04; x05; x06; x07; x08;
   x09; x0a; x0b; x0c; x0d; x0e; x0f; x10].

(** Collaborators for a concrete heartbeat: an encoder that leaves the
    request alone, a decoder that always finds two servers, and a store that
    keeps every list it is given. *)
Definition example_servers : list string := ["10.0.0.1:9000"; "10.0.0.2:9000"].

Definition example_Encode (m : Message) (timestamp : Z) : Message := m.

Definition example_Decode (m : Message) : Message * (list string + error) :=
  (m, inl example_servers).

Definition example_Set (st : list (list string)) (ctx : Context)
    (addresses : list string) : option error * list (list string) :=
  (None, addresses :: st).

(** ** Traces and the shapes of programs *)

Definition is_write (e : event) : Prop :=
  match e with EvWrite _ _ => True | EvRead _ _ => False end.

Definition is_read (e : event) : Prop :=
  match e with EvRead _ _ => True | EvWrite _ _ => False end.

(** The byte strings handed to [conn.Write], in order. *)
Fixpoint written (tr : list event) : list (list byte) :=
  match tr with
  | [] => []
  | EvWrite d _ :: rest => d :: written rest
  | EvRead _ _ :: rest => written rest
  end.

(** The bytes the reads stored, in order, and the total they reported. *)
Fixpoint received (tr : list event) : list byte :=
  match tr with
  | [] => []
  | EvRead _ r :: rest => rd_data r ++ received rest
  | EvWrite _ _ :: rest => received rest
  end.

Fixpoint bytes_read (tr : list event) : Z :=
  match tr with
  | [] => 0
  | EvRead _ r :: rest => rd_n r + bytes_read rest
  | EvWrite _ _ :: rest => bytes_read rest
  end.

(** The bytes reported by the reads that reported no error. *)
Fixpoint accepted (tr : list event) : Z :=
  match tr with
  | [] => 0
  | EvRead _ r :: rest =>
      match rd_err r with
      | None => rd_n r + accepted rest
      | Some _ => accepted rest
      end
  | EvWrite _ _ :: rest => accepted rest
  end.

(** A read that returned no bytes and no error. *)
Definition empty_read (ev : event) : Prop :=
  match ev with
  | EvRead _ r => rd_n r = 0 /\ rd_err r = None
  | EvWrite _ _ => False
  end.

(** The byte strings a complete [send] of [req] hands to the connection:
    the header, the valid part of the primary body and, when the overflow
    buffer is not nil, its valid part. *)
Definition seg (s : list byte) (n : Z) : list byte :=
  match slice_to s n with Some x => x | None => [] end.

Definition segments (req : Message) : list (list byte) :=
  header req
  :: seg (elems (Bytes (body1 req))) (Offset (body1 req))
  :: match Bytes (body2 req) with
     | None => []
     | Some b => [seg b (Offset (body2 req))]
     end.

(** A write that reported no error and a count other than the length of
    what it was given. *)
Definition short_write (ev : event) : Prop :=
  match ev with
  | EvWrite d r => wr_err r = None /\ wr_n r <> Z.of_nat (length d)
  | EvRead _ _ => False
  end.


(** A program that does not touch the mutex, writes (reads) only where
    [wr] ([rd]) allows, and can exhaust a loop budget only where [dv]
    allows. *)
Inductive conn_only (wr rd dv : bool) {A : Type} : prog A -> Prop :=
| co_Ret a : conn_only wr rd dv (Ret a)
| co_Panic x : conn_only wr rd dv (Panic x)
| co_Diverge : dv = true -> conn_only wr rd dv Diverge
| co_Write d k :
    wr = true -> (forall r, conn_only wr rd dv (k r)) ->
    conn_only wr rd dv (ConnWrite d k)
| co_Read n k :
    rd = true -> (forall r, conn_only wr rd dv (k r)) ->
    conn_only wr rd dv (ConnRead n k).

(** A goroutine that holds no lock and has no operation left. *)
Definition quiet {A : Type} (p : prog A) : Prop :=
  match p with Ret _ | Panic _ => True | _ => False end.

(** A goroutine inside the critical section: it uses the connection and
    then unlocks, after which it is [quiet]. *)
Inductive critical {A : Type} : prog A -> Prop :=
| cr_Diverge : critical Diverge
| cr_Unlock k : quiet k -> critical (MuUnlock k)
| cr_Write d k : (forall r, critical (k r)) -> critical (ConnWrite d k)
| cr_Read n k : (forall r, critical (k r)) -> critical (ConnRead n k).

(** A goroutine that has not taken the lock yet. *)
Definition entering {A : Type} (p : prog A) : Prop :=
  match p with MuLock k => critical k | _ => False end.

(** ** What is assumed of a connection *)

Definition int_range (z : Z) : Prop := - 2 ^ 63 <= z < 2 ^ 63.

Section Contracts.

Variable Conn : Type.
Variable conn_Read : Conn -> nat -> read_result * Conn.

(** The count a read reports is a Go [int]. *)
Definition conn_typed : Prop :=
  forall c len, int_range (rd_n (fst (conn_Read c len))).

(** The [io.Reader] contract: a read into [len] bytes reports
    [0 <= n <= len] and stores exactly [n] bytes. *)
Definition reader_ok : Prop :=
  forall c len,
    let r := fst (conn_Read c len) in
    0 <= rd_n r <= Z.of_nat len /\ length (rd_data r) = Z.to_nat (rd_n r).

(** A stream on which every read of a non-empty buffer makes progress:
    no error and at least one byte, possibly fewer than asked for. *)
Definition progressing : Prop :=
  forall c len, (0 < len)%nat ->
    let r := fst (conn_Read c len) in
    rd_err r = None /\ 0 < rd_n r.

(** A stream whose every read returns no bytes and no error. *)
Definition always_empty : Prop :=
  forall c len,
    let r := fst (conn_Read c len) in
    rd_n r = 0 /\ rd_err r = None.

(** [k] reads of [len] bytes from [c], each returning no bytes and no
    error, lead to [c1]. *)
Fixpoint empty_reads (k : nat) (c : Conn) (len : nat) (c1 : Conn) : Prop :=
  match k with
  | O => c1 = c
  | S k' =>
      let (r, c2) := conn_Read c len in
      rd_n r = 0 /\ rd_err r = None /\ empty_reads k' c2 len c1
  end.

End Contracts.

(** The length of a Go slice is an [int]. *)
Definition int_len (s : list byte) : Prop := Z.of_nat (length s) < 2 ^ 63.

(** What the mutex maintains: every goroutine is before, inside or after
    its critical section; only the holder of the lock is inside; a
    goroutine that has not locked yet has nothing on the wire; the holder's
    operations are the last block; and the wire trace is serial. *)
Record mutex_inv {Conn A : Type} (m : Machine Conn A) : Prop := mkInv {
  inv_phase : forall t,
    entering (m_pool m t) \/ critical (m_pool m t) \/ quiet (m_pool m t);
  inv_held : forall t, critical (m_pool m t) -> m_mu m = true;
  inv_one : forall t1 t2,
    critical (m_pool m t1) -> critical (m_pool m t2) -> t1 = t2;
  inv_fresh : forall t,
    entering (m_pool m t) -> ~ In t (map fst (m_trace m));
  inv_last : forall t,
    critical (m_pool m t) ->
    ~ In t (map fst (m_trace m)) \/ last_tid (m_trace m) = Some t;
  inv_serial : serial (m_trace m)
}.

(** An in-memory pipe: a write appends all its bytes to the queue that
    [chunk_Read] reads from. *)
Definition pipe_Write (q : list byte) (data : list byte)
  : write_result * list byte :=
  (mkWrite (Z.of_nat (length data)) None, q ++ data).

(** The body a request puts on the wire: the valid part of its primary
    buffer followed by the valid part of its overflow buffer. *)
Definition sent_body (req : Message) : list byte := concat (tl (segments req)).

(** An operation of the connection that reported the error [e]. *)
Definition reports (ev : event) (e : error) : Prop :=
  match ev with
  | EvWrite _ r => wr_err r = Some e
  | EvRead _ r => rd_err r = Some e
  end.

(** Where the root cause of an error returned over the operations [evs]
    comes from: a short write among them, [bound] empty reads in a row at
    their end, or an error one of them reported. *)
Definition blames (bound : nat) (evs : list event) (e : error) : Prop :=
  (Cause e = ErrShortWrite /\ exists ev, In ev evs /\ short_write ev) \/
  (Cause e = ErrNoProgress /\
   exists pre tl, evs = pre ++ tl /\ length tl = bound /\ Forall empty_read tl) \/
  (exists ev e0, In ev evs /\ reports ev e0 /\ Cause e = Cause e0).

(** Two states of a message with buffers of the same sizes: the header and
    the primary body have the same lengths, the primary body is nil in both
    or in neither, and the primary offset and the whole overflow buffer are
    equal. *)
Definition same_sizes (a b : Message) : Prop :=
  length (header a) = length (header b) /\
  length (elems (Bytes (body1 a))) = length (elems (Bytes (body1 b))) /\
  (Bytes (body1 a) = None <-> Bytes (body1 b) = None) /\
  Offset (body1 a) = Offset (body1 b) /\
  body2 a = body2 b.

(** The log of a complete pass of the heartbeat loop, and the logs a pass
    can leave when it is the last one. *)
Definition hb_pass (addresses : list string) : list hb_event :=
  [HbCall; HbDecode; HbSet addresses].

Inductive hb_tail : list hb_event -> Prop :=
| tail_none : hb_tail []
| tail_call : hb_tail [HbCall]
| tail_decode : hb_tail [HbCall; HbDecode]
| tail_set addresses : hb_tail (hb_pass addresses).


(** ** Creating and closing a client *)

(** What [Close] gives back: the error of [conn.Close], or the panic that
    closing an already closed channel raises. *)
Inductive close_result : Type :=
| CloseReturned (err : option error)
| ClosePanicked.

Section Lifecycle.

Variable Conn : Type.
Variable Store : Type.
Variable conn_Close : Conn -> option error * Conn.

(** The [Client] struct without its logger; [closeCh_closed] tells whether
    the stop channel has been closed, [mu_locked] whether the mutex is
    held. *)
Record Client : Type := mkClient {
  address : string;
  store : Store;
  c_conn : Conn;
  heartbeatTimeout : Z;
  closeCh_closed : bool;
  mu_locked : bool
}.

(** [newClient]: the interval and the mutex keep their zero values and the
    stop channel is made open. *)
Definition newClient (conn0 : Conn) (address0 : string) (store0 : Store)
  : Client :=
  mkClient address0 store0 conn0 0 false false.

(** [Close]: [close(c.closeCh)] panics on a closed channel; otherwise the
    result is that of [c.conn.Close()]. *)
Definition Close (c : Client) : close_result * Client :=
  if closeCh_closed c then (ClosePanicked, c)
  else
    let (err, conn1) := conn_Close (c_conn c) in
    (CloseReturned err,
     mkClient (address c) (store c) conn1 (heartbeatTimeout c) true
              (mu_locked c)).

(** The poll of [closeCh] in the heartbeat loop of client [c]: a closed
    channel is ready at every pass. *)
Definition poll_closeCh (c : Client) : nat -> bool :=
  fun _ => closeCh_closed c.

End Lifecycle.

(** A goroutine's program [p] is what the outcome [o] of a run leaves:
    the returned value or the panic. *)
Definition settled {A : Type} (o : outcome A) (p : prog A) : Prop :=
  match o with
  | Returned a => p = Ret a
  | Panicked x => p = Panic x
  | Blocked | Diverged => False
  end.

(** ** Further concrete pieces *)

(** A request whose header announces the two words its primary buffer
    holds. *)
Definition example_request : Message :=
  mkMessage 2 x05 x00 0 example_header
    (mkBuffer (Some example_body) 16) (mkBuffer None 0).

(** A store that refuses a context that is still live. *)
Definition strict_Set (st : list (list string)) (ctx : Context)
    (addresses : list string) : option error * list (list string) :=
  if ctx_cancelled ctx then (None, addresses :: st)
  else (Some (ErrTransport "context is live"), st).

(** Closing an in-memory stream drops what is left of it. *)
Definition drop_Close (st : list byte) : option error * list byte :=
  (None, []).

(** * Properties *)

Ltac split_all :=
  repeat match goal with
         | |- _ /\ _ => split
         | |- Forall _ (_ :: _) => constructor
         | |- Forall _ [] => constructor
         | |- is_read _ => exact I
         | |- is_write _ => exact I
         end.

(** ** Bytes and little-endian integers *)

Lemma byte_val_range (b : byte) : 0 <= byte_val b < 256.
Proof.
  unfold byte_val. pose proof (Byte.to_N_bounded b) as H.
  split; [apply N2Z.is_nonneg | ].
  apply N2Z.inj_le in H. change (Z.of_N 255) with 255 in H. lia.
Qed.

Lemma land_shiftl_low (a b k : Z) :
  0 <= k -> 0 <= a < 2 ^ k -> Z.land a (Z.shiftl b k) = 0.
Proof.
  intros Hk Ha. apply Z.bits_inj'. intros n Hn.
  rewrite Z.land_spec, Z.bits_0.
  destruct (Z.lt_ge_cases n k) as [Hlt | Hge].
  - rewrite (Z.shiftl_spec_low b k n Hlt). apply andb_false_r.
  - replace a with (a mod 2 ^ k) by (apply Z.mod_small; exact Ha).
    rewrite Z.mod_pow2_bits_high by lia. reflexivity.
Qed.

Lemma lor_shiftl_add (a b k : Z) :
  0 <= k -> 0 <= a < 2 ^ k -> Z.lor a (Z.shiftl b k) = a + b * 2 ^ k.
Proof.
  intros Hk Ha.
  pose proof (land_shiftl_low b Hk Ha) as Hland.
  rewrite <- (Z.lxor_lor _ _ Hland), <- (Z.add_nocarry_lxor _ _ Hland).
  rewrite Z.shiftl_mul_pow2 by exact Hk. reflexivity.
Qed.

Lemma Uint16_le_uint (b0 b1 : byte) (rest : list byte) :
  Uint16 (b0 :: b1 :: rest) = Some (le_uint [b0; b1]).
Proof.
  pose proof (byte_val_range b0). pose proof (byte_val_range b1).
  unfold Uint16, wrap_uint16, le_uint. f_equal.
  rewrite Z.shiftl_mul_pow2 by lia.
  rewrite (Z.mod_small (byte_val b1 * 2 ^ 8)) by lia.
  rewrite <- Z.shiftl_mul_pow2 by lia.
  rewrite lor_shiftl_add by lia. lia.
Qed.

Lemma Uint32_le_uint (b0 b1 b2 b3 : byte) (rest : list byte) :
  Uint32 (b0 :: b1 :: b2 :: b3 :: rest) = Some (le_uint [b0; b1; b2; b3]).
Proof.
  pose proof (byte_val_range b0). pose proof (byte_val_range b1).
  pose proof (byte_val_range b2). pose proof (byte_val_range b3).
  unfold Uint32, wrap_uint32, le_uint. f_equal.
  rewrite !Z.shiftl_mul_pow2 by lia.
  rewrite (Z.mod_small (byte_val b1 * 2 ^ 8)) by lia.
  rewrite (Z.mod_small (byte_val b2 * 2 ^ 16)) by lia.
  rewrite (Z.mod_small (byte_val b3 * 2 ^ 24)) by lia.
  rewrite <- !Z.shiftl_mul_pow2 by lia.
  rewrite (@lor_shiftl_add (byte_val b0) (byte_val b1) 8) by lia.
  rewrite (@lor_shiftl_add _ (byte_val b2) 16) by lia.
  rewrite (@lor_shiftl_add _ (byte_val b3) 24) by lia.
  lia.
Qed.

Lemma le_uint_range (bs : list byte) :
  0 <= le_uint bs < 256 ^ Z.of_nat (length bs).
Proof.
  induction bs as [|b bs IH].
  - simpl. lia.
  - pose proof (byte_val_range b).
    replace (Z.of_nat (length (b :: bs))) with (Z.succ (Z.of_nat (length bs)))
      by (simpl length; lia).
    rewrite Z.pow_succ_r by lia.
    change (le_uint (b :: bs)) with (byte_val b + 256 * le_uint bs). lia.
Qed.

(** ** Sequential runs *)

Section RunFacts.

Variable messageMaxConsecutiveEmptyReads : nat.
Variable Conn : Type.
Variable conn_Read : Conn -> nat -> read_result * Conn.
Variable conn_Write : Conn -> list byte -> write_result * Conn.

Local Abbreviation exec := (run conn_Read conn_Write).
Local Abbreviation bound := messageMaxConsecutiveEmptyReads.

Lemma run_bind {A B : Type} (p : prog A) (f : A -> prog B) (w : World Conn) :
  exec (bind p f) w =
  match exec p w with
  | (Returned a, w1) => exec (f a) w1
  | (Panicked x, w1) => (Panicked x, w1)
  | (Blocked, w1) => (Blocked, w1)
  | (Diverged, w1) => (Diverged, w1)
  end.
Proof.
  revert w; induction p as [a|x| |k IH|k IH|d k IH|n k IH]; intros w; simpl.
  - destruct (exec (f a) w) as [[ | | | ] w1]; reflexivity.
  - reflexivity.
  - reflexivity.
  - destruct (mu w); [reflexivity | apply IH].
  - destruct (mu w); [apply IH | reflexivity].
  - destruct (conn_Write (conn w) d) as [r c]; apply IH.
  - destruct (conn_Read (conn w) n) as [r c]; apply IH.
Qed.

(** What [recvHeader] does once the header bytes have been received. *)
Lemma recvHeader_run (res : Message) (b0 b1 b2 b3 b4 b5 b6 b7 : byte)
    (w w1 : World Conn) :
  exec (recvPeek bound (header res)) w
    = (Returned ([b0; b1; b2; b3; b4; b5; b6; b7], None), w1) ->
  exists res1,
    exec (recvHeader bound res) w = (Returned (res1, None), w1) /\
    header res1 = [b0; b1; b2; b3; b4; b5; b6; b7] /\
    words res1 = le_uint [b0; b1; b2; b3] /\
    words res1 = byte_val b0 + 2 ^ 8 * byte_val b1 + 2 ^ 16 * byte_val b2
                 + 2 ^ 24 * byte_val b3 /\
    mtype res1 = b4 /\
    flags res1 = b5 /\
    extra res1 = le_uint [b6; b7] /\
    extra res1 = byte_val b6 + 2 ^ 8 * byte_val b7 /\
    body1 res1 = body1 res /\ body2 res1 = body2 res.
Proof.
  intros Hpeek. unfold recvHeader. rewrite run_bind, Hpeek.
  cbv beta iota.
  rewrite Uint32_le_uint.
  change (slice_from [b0; b1; b2; b3; b4; b5; b6; b7] 6) with (Some [b6; b7]).
  cbn [nth_error]. cbv beta iota.
  rewrite Uint16_le_uint.
  eexists. split; [reflexivity | ].
  cbn [header words mtype flags extra body1 body2 set_fields set_header].
  change (le_uint [b0; b1; b2; b3])
    with (byte_val b0 + 256 * (byte_val b1 + 256 * (byte_val b2
            + 256 * (byte_val b3 + 256 * 0)))).
  change (le_uint [b6; b7]) with (byte_val b6 + 256 * (byte_val b7 + 256 * 0)).
  repeat split; lia.
Qed.

(** C1. Once the eight header bytes [b0 .. b7] have been received,
    [recvHeader] sets the word count to the unsigned 32-bit little-endian
    integer of bytes 0-3, the message type to byte 4, the flags to byte 5
    and [extra] to the unsigned 16-bit little-endian integer of bytes 6-7,
    whatever the values of the bytes; the body buffers are left alone. *)
Theorem recvHeader_layout (res : Message) (b0 b1 b2 b3 b4 b5 b6 b7 : byte)
    (w w1 : World Conn) :
  exec (recvPeek bound (header res)) w
    = (Returned ([b0; b1; b2; b3; b4; b5; b6; b7], None), w1) ->
  exists res1,
    exec (recvHeader bound res) w = (Returned (res1, None), w1) /\
    header res1 = [b0; b1; b2; b3; b4; b5; b6; b7] /\
    words res1 = le_uint [b0; b1; b2; b3] /\
    words res1 = byte_val b0 + 2 ^ 8 * byte_val b1 + 2 ^ 16 * byte_val b2
                 + 2 ^ 24 * byte_val b3 /\
    mtype res1 = b4 /\
    flags res1 = b5 /\
    extra res1 = le_uint [b6; b7] /\
    extra res1 = byte_val b6 + 2 ^ 8 * byte_val b7 /\
    body1 res1 = body1 res /\ body2 res1 = body2 res.
Proof.
  apply recvHeader_run.
Qed.

(** *** Shapes of the client's programs *)

Lemma conn_only_bind (wr rd dv : bool) {A B : Type} (p : prog A) (f : A -> prog B) :
  conn_only wr rd dv p -> (forall a, conn_only wr rd dv (f a)) ->
  conn_only wr rd dv (bind p f).
Proof.
  intros Hp Hf. induction Hp; simpl; try (constructor; auto); auto.
Qed.

Lemma conn_only_weaken (wr rd dv : bool) {A : Type} (p : prog A) :
  conn_only wr rd dv p -> conn_only true true true p.
Proof.
  intros Hp. induction Hp; constructor; auto.
Qed.

Lemma sendHeader_shape (req : Message) : conn_only true false false (sendHeader req).
Proof.
  unfold sendHeader. constructor; [reflexivity | ]. intros r.
  destruct (wr_err r); [constructor | ].
  destruct (negb (wr_n r =? messageHeaderSize)); constructor.
Qed.

Lemma sendBody_shape (req : Message) : conn_only true false false (sendBody req).
Proof.
  unfold sendBody.
  destruct (slice_to _ _) as [buf | ]; [ | constructor].
  constructor; [reflexivity | ]. intros r.
  destruct (wr_err r); [constructor | ].
  destruct (negb _); [constructor | ].
  destruct (Bytes (body2 req)) as [bytes2 | ]; [ | constructor].
  destruct (slice_to _ _) as [buf2 | ]; [ | constructor].
  constructor; [reflexivity | ]. intros r2.
  destruct (wr_err r2); [constructor | ].
  destruct (negb _); constructor.
Qed.

Lemma send_shape (req : Message) : conn_only true false false (send req).
Proof.
  unfold send. apply conn_only_bind; [apply sendHeader_shape | ].
  intros [e | ]; [constructor | ].
  apply conn_only_bind; [apply sendBody_shape | ].
  intros [e | ]; constructor.
Qed.

Lemma recvFill_loop_shape (i : nat) (buf : list byte) :
  conn_only false true true (recvFill_loop i buf).
Proof.
  revert buf. induction i as [ | i IH]; intros buf; simpl.
  - constructor.
  - constructor; [reflexivity | ]. intros r.
    destruct (rd_n r <? 0); [constructor | ].
    destruct (rd_err r); [constructor | ].
    destruct (0 <? rd_n r); [constructor | apply IH].
Qed.

Lemma recvPeek_loop_shape (fuel : nat) (buf : list byte) (offset : Z) :
  conn_only false true true (recvPeek_loop bound fuel buf offset).
Proof.
  revert buf offset. induction fuel as [ | fuel IH]; intros buf offset; simpl.
  - destruct (offset <? _); constructor; reflexivity.
  - destruct (offset <? _); [ | constructor].
    destruct (slice_from buf offset) as [sub | ]; [ | constructor].
    apply conn_only_bind; [apply (recvFill_loop_shape bound sub) | ].
    intros [sub1 [n [e | ]]]; [constructor | apply IH].
Qed.

Lemma recvPeek_shape (buf : list byte) : conn_only false true true (recvPeek bound buf).
Proof. apply recvPeek_loop_shape. Qed.

Lemma recvHeader_shape (res : Message) : conn_only false true true (recvHeader bound res).
Proof.
  unfold recvHeader. apply conn_only_bind; [apply recvPeek_shape | ].
  intros [h [e | ]]; [constructor | ].
  destruct (Uint32 h); [ | constructor].
  destruct (nth_error h 4); [ | constructor].
  destruct (nth_error h 5); [ | constructor].
  destruct (slice_from h 6) as [tl | ]; [ | constructor].
  destruct (Uint16 tl); constructor.
Qed.

Lemma recvBody_shape (res : Message) : conn_only false true true (recvBody bound res).
Proof.
  unfold recvBody.
  destruct (slice_to _ _) as [buf | ]; [ | constructor].
  apply conn_only_bind; [apply recvPeek_shape | ].
  intros [buf1 [e | ]]; constructor.
Qed.

Lemma recv_shape (res : Message) : conn_only false true true (recv bound res).
Proof.
  unfold recv. apply conn_only_bind; [apply recvHeader_shape | ].
  intros [res1 [e | ]]; [constructor | ].
  apply conn_only_bind; [apply recvBody_shape | ].
  intros [res2 [e | ]]; constructor.
Qed.

Lemma Call_body_shape (request response : Message) :
  conn_only true true true (Call_body bound request response).
Proof.
  unfold Call_body.
  apply conn_only_bind; [apply (conn_only_weaken (send_shape request)) | ].
  intros [e | ]; [constructor | ].
  apply conn_only_bind; [apply (conn_only_weaken (recv_shape response)) | ].
  intros [res [e | ]]; constructor.
Qed.

Lemma defer_Unlock_critical (wr rd dv : bool) {A : Type} (p : prog A) :
  conn_only wr rd dv p -> critical (defer_Unlock p).
Proof.
  intros Hp. induction Hp; simpl; constructor; simpl; auto.
Qed.

Lemma Call_entering (ctx : Context) (request response : Message) :
  entering (Call bound ctx request response).
Proof.
  simpl. apply (defer_Unlock_critical (Call_body_shape request response)).
Qed.

(** *** What a run of a shaped program does to the world *)

Lemma conn_only_run (wr rd dv : bool) {A : Type} (p : prog A) :
  conn_only wr rd dv p ->
  forall (w w1 : World Conn) (o : outcome A),
    exec p w = (o, w1) ->
    mu w1 = mu w /\ o <> Blocked /\ (dv = false -> o <> Diverged) /\
    exists evs, trace w1 = trace w ++ evs /\
      (wr = false -> Forall is_read evs) /\
      (rd = false -> Forall is_write evs).
Proof.
  intros Hp. induction Hp as [a|x|Hdv|d k Hwr _ IH|n k Hrd _ IH];
    intros w w1 o Hrun; simpl in Hrun.
  1-3: injection Hrun as <- <-; (split; [reflexivity | ]);
       (split; [discriminate | ]);
       (split; [try discriminate; congruence | ]);
       exists []; rewrite app_nil_r; auto.
  - destruct (conn_Write (conn w) d) as [r c].
    destruct (IH r _ _ _ Hrun) as (Hmu & Hb & Hd & evs & Htr & Hr & Hw).
    simpl in Hmu, Htr. split_all; auto.
    exists (EvWrite d r :: evs). rewrite Htr, <- app_assoc. split; [reflexivity | ].
    split; intros Hf.
    + congruence.
    + constructor; [exact I | auto].
  - destruct (conn_Read (conn w) n) as [r c].
    destruct (IH r _ _ _ Hrun) as (Hmu & Hb & Hd & evs & Htr & Hr & Hw).
    simpl in Hmu, Htr. split_all; auto.
    exists (EvRead n r :: evs). rewrite Htr, <- app_assoc. split; [reflexivity | ].
    split; intros Hf.
    + constructor; [exact I | auto].
    + congruence.
Qed.

(** *** Buffers and traces *)

Lemma write_back_length (s : list byte) (off : nat) (sub : list byte) :
  (off + length sub <= length s)%nat ->
  length (write_back s off sub) = length s.
Proof.
  intros H. unfold write_back.
  rewrite !length_app, length_firstn, length_skipn. lia.
Qed.

Lemma overwrite_length (buf data : list byte) :
  length (overwrite buf data) = length buf.
Proof.
  unfold overwrite. apply write_back_length.
  rewrite length_firstn. lia.
Qed.

Lemma overwrite_nil (buf : list byte) : overwrite buf [] = buf.
Proof.
  unfold overwrite, write_back. rewrite firstn_nil. reflexivity.
Qed.

Lemma overwrite_short (buf data : list byte) :
  (length data <= length buf)%nat ->
  overwrite buf data = data ++ skipn (length data) buf.
Proof.
  intros H. unfold overwrite, write_back.
  rewrite (firstn_all2 data H). reflexivity.
Qed.

Lemma write_back_tail (s : list byte) (off : nat) (sub : list byte) :
  (off + length sub = length s)%nat ->
  write_back s off sub = firstn off s ++ sub.
Proof.
  intros H. unfold write_back.
  rewrite skipn_all2 by lia. rewrite app_nil_r. reflexivity.
Qed.

Lemma received_app (t1 t2 : list event) :
  received (t1 ++ t2) = received t1 ++ received t2.
Proof.
  induction t1 as [ | [d r | n r] t1 IH]; simpl; [reflexivity | exact IH | ].
  rewrite IH, app_assoc. reflexivity.
Qed.

Lemma bytes_read_app (t1 t2 : list event) :
  bytes_read (t1 ++ t2) = bytes_read t1 + bytes_read t2.
Proof.
  induction t1 as [ | [d r | n r] t1 IH]; simpl; lia.
Qed.

Lemma accepted_app (t1 t2 : list event) :
  accepted (t1 ++ t2) = accepted t1 + accepted t2.
Proof.
  induction t1 as [ | [d r | n r] t1 IH]; simpl; [lia | exact IH | ].
  destruct (rd_err r); lia.
Qed.

Lemma slice_from_Some (s : list byte) (n : Z) (sub : list byte) :
  slice_from s n = Some sub ->
  0 <= n <= Z.of_nat (length s) /\ sub = skipn (Z.to_nat n) s /\
  length sub = (length s - Z.to_nat n)%nat.
Proof.
  unfold slice_from. intros H.
  destruct (Z.leb_spec 0 n); [ | discriminate].
  destruct (Z.leb_spec n (Z.of_nat (length s))); [ | discriminate].
  injection H as <-. rewrite length_skipn. repeat split; lia.
Qed.

Lemma slice_to_Some (s : list byte) (n : Z) (sub : list byte) :
  slice_to s n = Some sub ->
  0 <= n <= Z.of_nat (length s) /\ sub = firstn (Z.to_nat n) s /\
  length sub = Z.to_nat n.
Proof.
  unfold slice_to. intros H.
  destruct (Z.leb_spec 0 n); [ | discriminate].
  destruct (Z.leb_spec n (Z.of_nat (length s))); [ | discriminate].
  injection H as <-. rewrite length_firstn. repeat split; lia.
Qed.

Lemma slice_to_None (s : list byte) (n : Z) :
  slice_to s n = None <-> n < 0 \/ Z.of_nat (length s) < n.
Proof.
  unfold slice_to.
  destruct (Z.leb_spec 0 n); destruct (Z.leb_spec n (Z.of_nat (length s)));
    simpl; split; intros Hn; try discriminate; try reflexivity; lia.
Qed.

Lemma wrap_int_small (z : Z) : int_range z -> wrap_int z = z.
Proof.
  unfold int_range, wrap_int. intros H.
  rewrite Z.mod_small by lia. lia.
Qed.

(** *** [recvFill] *)

Lemma recvFill_loop_total (i : nat) (buf : list byte) (w w1 : World Conn)
    (o : outcome (list byte * (Z * option error))) :
  exec (recvFill_loop i buf) w = (o, w1) ->
  o = Panicked errNegativeRead \/
  exists buf1 n err,
    o = Returned (buf1, (n, err)) /\ length buf1 = length buf /\
    match err with
    | None => 0 < n /\ exists c len, n = rd_n (fst (conn_Read c len))
    | Some _ => n = -1
    end.
Proof.
  revert buf w. induction i as [ | i IH]; intros buf w Hrun; simpl in Hrun.
  - injection Hrun as <- <-. right.
    exists buf, (-1), (Some ErrNoProgress). auto.
  - destruct (conn_Read (conn w) (length buf)) as [r c] eqn:Hrd.
    destruct (Z.ltb_spec (rd_n r) 0) as [Hneg | Hnn].
    + injection Hrun as <- <-. left. reflexivity.
    + destruct (rd_err r) as [e | ] eqn:He.
      * injection Hrun as <- <-. right.
        exists (overwrite buf (rd_data r)), (-1), (Some e).
        rewrite overwrite_length. auto.
      * destruct (Z.ltb_spec 0 (rd_n r)) as [Hpos | Hzero].
        -- injection Hrun as <- <-. right.
           exists (overwrite buf (rd_data r)), (rd_n r), None.
           rewrite overwrite_length. repeat split; auto.
           exists (conn w), (length buf). rewrite Hrd. reflexivity.
        -- apply IH in Hrun.
           destruct Hrun as [-> | (buf1 & n & err & -> & Hlen & Hm)];
             [left; reflexivity | right].
           exists buf1, n, err. rewrite overwrite_length in Hlen. auto.
Qed.

Lemma recvFill_loop_ok (Hok : reader_ok conn_Read) (i : nat) (buf : list byte)
    (w w1 : World Conn) (o : outcome (list byte * (Z * option error))) :
  exec (recvFill_loop i buf) w = (o, w1) ->
  exists buf1 n err evs,
    o = Returned (buf1, (n, err)) /\ trace w1 = trace w ++ evs /\
    Forall is_read evs /\ length buf1 = length buf /\ (length evs <= i)%nat /\
    (progressing conn_Read -> (0 < i)%nat -> (0 < length buf)%nat -> err = None) /\
    accepted evs = match err with None => n | Some _ => 0 end /\
    match err with
    | None =>
        0 < n <= Z.of_nat (length buf) /\
        buf1 = received evs ++ skipn (Z.to_nat n) buf /\
        length (received evs) = Z.to_nat n /\ bytes_read evs = n
    | Some e =>
        n = -1 /\
        ((e = ErrNoProgress /\ length evs = i) \/
         exists len r, In (EvRead len r) evs /\ rd_err r = Some e)
    end.
Proof.
  revert buf w. induction i as [ | i IH]; intros buf w Hrun; simpl in Hrun.
  - injection Hrun as <- <-.
    exists buf, (-1), (Some ErrNoProgress), []. rewrite app_nil_r.
    split_all; auto. intros _ Hi. inversion Hi.
  - destruct (conn_Read (conn w) (length buf)) as [r c] eqn:Hrd.
    pose proof Hok as Hr. unfold reader_ok in Hr.
    specialize (Hr (conn w) (length buf)). rewrite Hrd in Hr.
    simpl in Hr. destruct Hr as [Hn Hdata].
    assert (Hprog : progressing conn_Read -> (0 < length buf)%nat ->
                    rd_err r = None /\ 0 < rd_n r).
    { intros Hp Hl. specialize (Hp (conn w) (length buf) Hl).
      rewrite Hrd in Hp. exact Hp. }
    destruct (Z.ltb_spec (rd_n r) 0) as [Hneg | _]; [lia | ].
    destruct (rd_err r) as [e | ] eqn:He.
    + injection Hrun as <- <-.
      exists (overwrite buf (rd_data r)), (-1), (Some e), [EvRead (length buf) r].
      rewrite overwrite_length. simpl. rewrite He.
      split_all; auto; try lia.
      * intros Hp _ Hl. destruct (Hprog Hp Hl) as [Habs _]. discriminate Habs.
      * right. exists (length buf), r. auto.
    + destruct (Z.ltb_spec 0 (rd_n r)) as [Hpos | Hzero].
      * injection Hrun as <- <-.
        exists (overwrite buf (rd_data r)), (rd_n r), None, [EvRead (length buf) r].
        rewrite overwrite_length. simpl. rewrite app_nil_r, He.
        split_all; auto; try lia.
        rewrite overwrite_short by lia. rewrite Hdata. reflexivity.
      * assert (Hnil : rd_data r = []) by (apply length_zero_iff_nil; lia).
        rewrite Hnil, overwrite_nil in Hrun.
        apply IH in Hrun.
        destruct Hrun as (buf1 & n & err & evs & -> & Htr & Hrd1 & Hlen & Hcnt
                          & _ & Hacc & Hm).
        simpl in Htr.
        exists buf1, n, err, (EvRead (length buf) r :: evs).
        rewrite Htr, <- app_assoc. simpl. rewrite He.
        split_all; auto; try lia.
        -- intros Hp _ Hl. destruct (Hprog Hp Hl) as [_ Habs]. lia.
        -- destruct err as [e | ].
           ++ destruct Hm as [Hm1 [[He1 Hl] | (len & r1 & Hin & Her)]].
              ** split; [exact Hm1 | ]. left. split; [exact He1 | lia].
              ** split; [exact Hm1 | ]. right. exists len, r1. auto.
           ++ rewrite Hnil. simpl.
              destruct Hm as (Hm1 & Hm2 & Hm3 & Hm4). split_all; auto; lia.
Qed.

(** *** [recvPeek] *)

Lemma firstn_two_parts (a b c : list byte) :
  firstn (length a + length b) (a ++ b ++ c) = a ++ b.
Proof.
  rewrite app_assoc, <- length_app.
  replace (length (a ++ b)) with (length (a ++ b) + 0)%nat by lia.
  rewrite firstn_app_2. simpl. apply app_nil_r.
Qed.

Lemma wrap_int_sum (offset n len : Z) :
  0 <= offset < len -> len < 2 ^ 63 -> 0 < n -> int_range n ->
  (offset + n < 2 ^ 63 /\ wrap_int (offset + n) = offset + n) \/
  wrap_int (offset + n) < 0.
Proof.
  intros Ho Hl Hn Hr. unfold int_range in Hr.
  destruct (Z_lt_ge_dec (offset + n) (2 ^ 63)) as [Hlt | Hge].
  - left. split; [exact Hlt | ]. apply wrap_int_small. unfold int_range. lia.
  - right. unfold wrap_int.
    replace (offset + n + 2 ^ 63) with (offset + n - 2 ^ 63 + 1 * 2 ^ 64) by lia.
    rewrite Z_mod_plus_full. rewrite Z.mod_small by lia. lia.
Qed.

(** The loop of [recvPeek] never exhausts a budget of one pass more than
    the bytes still missing: every pass either ends the loop or moves
    [offset] forward. *)
Lemma recvPeek_loop_total (Hty : conn_typed conn_Read) (fuel : nat)
    (buf : list byte) (offset : Z) (w w1 : World Conn)
    (o : outcome (list byte * option error)) :
  int_len buf ->
  (offset < 0 -> (1 <= fuel)%nat) ->
  (0 <= offset < Z.of_nat (length buf) ->
   Z.of_nat (length buf) - offset + 1 <= Z.of_nat fuel) ->
  exec (recvPeek_loop bound fuel buf offset) w = (o, w1) ->
  o <> Diverged.
Proof.
  revert buf offset w. induction fuel as [ | fuel IH];
    intros buf offset w Hlen Hneg Hpos Hrun; simpl in Hrun.
  - destruct (Z.ltb_spec offset (Z.of_nat (length buf))) as [Hlt | Hge].
    + exfalso. destruct (Z_lt_ge_dec offset 0) as [H0 | H0].
      * specialize (Hneg H0). lia.
      * assert (Hin : 0 <= offset < Z.of_nat (length buf)) by lia.
        specialize (Hpos Hin). lia.
    + injection Hrun as <- <-. discriminate.
  - destruct (Z.ltb_spec offset (Z.of_nat (length buf))) as [Hlt | Hge].
    2:{ injection Hrun as <- <-. discriminate. }
    destruct (slice_from buf offset) as [sub | ] eqn:Hsub.
    2:{ injection Hrun as <- <-. discriminate. }
    apply slice_from_Some in Hsub. destruct Hsub as (Hoff & Hsub & Hsublen).
    rewrite run_bind in Hrun.
    destruct (exec (recvFill bound sub) w) as [o1 w2] eqn:Hfill.
    apply recvFill_loop_total in Hfill.
    destruct Hfill as [-> | (sub1 & n & err & -> & Hl1 & Hm)].
    { injection Hrun as <- <-. discriminate. }
    destruct err as [e | ].
    { injection Hrun as <- <-. discriminate. }
    destruct Hm as (Hn & c & len & Hnc).
    assert (Hnr : int_range n) by (rewrite Hnc; apply Hty).
    assert (Hwb : length (write_back buf (Z.to_nat offset) sub1) = length buf)
      by (apply write_back_length; lia).
    assert (Hin : 0 <= offset < Z.of_nat (length buf)) by lia.
    specialize (Hpos Hin).
    apply IH in Hrun; [exact Hrun | | | ].
    + unfold int_len in *. rewrite Hwb. exact Hlen.
    + intros _. lia.
    + rewrite Hwb. intros Hnew.
      destruct (wrap_int_sum Hin Hlen Hn Hnr) as [[_ Heq] | Hw]; lia.
Qed.

Lemma recvPeek_total (Hty : conn_typed conn_Read) (buf : list byte)
    (w w1 : World Conn) (o : outcome (list byte * option error)) :
  int_len buf -> exec (recvPeek bound buf) w = (o, w1) -> o <> Diverged.
Proof.
  intros Hlen Hrun. unfold recvPeek in Hrun.
  apply (recvPeek_loop_total Hty) in Hrun; [exact Hrun | exact Hlen | | ]; lia.
Qed.

(** On a connection that keeps the [io.Reader] contract the loop returns,
    and a [nil] error means that the bytes from [offset] on are the bytes
    the reads stored, in order. *)
Lemma recvPeek_loop_ok (Hok : reader_ok conn_Read) (fuel : nat)
    (buf : list byte) (offset : Z) (w w1 : World Conn)
    (o : outcome (list byte * option error)) :
  int_len buf ->
  0 <= offset <= Z.of_nat (length buf) ->
  Z.of_nat (length buf) - offset <= Z.of_nat fuel ->
  exec (recvPeek_loop bound fuel buf offset) w = (o, w1) ->
  exists buf1 err evs,
    o = Returned (buf1, err) /\ trace w1 = trace w ++ evs /\
    Forall is_read evs /\ length buf1 = length buf /\
    (progressing conn_Read -> (0 < bound)%nat -> err = None) /\
    match err with
    | None =>
        buf1 = firstn (Z.to_nat offset) buf ++ received evs /\
        bytes_read evs = Z.of_nat (length buf) - offset /\
        accepted evs = Z.of_nat (length buf) - offset
    | Some e =>
        (e = ErrNoProgress \/
         exists len r, In (EvRead len r) evs /\ rd_err r = Some e) /\
        0 <= accepted evs < Z.of_nat (length buf) - offset
    end.
Proof.
  revert buf offset w. induction fuel as [ | fuel IH];
    intros buf offset w Hlen Hoff Hfuel Hrun; simpl in Hrun.
  - destruct (Z.ltb_spec offset (Z.of_nat (length buf))) as [Hlt | Hge]; [lia | ].
    injection Hrun as <- <-. exists buf, None, []. rewrite !app_nil_r.
    split_all; auto; try (simpl; lia).
    symmetry. apply firstn_all2. lia.
  - destruct (Z.ltb_spec offset (Z.of_nat (length buf))) as [Hlt | Hge].
    2:{ injection Hrun as <- <-. exists buf, None, []. rewrite !app_nil_r.
        split_all; auto; try (simpl; lia).
        symmetry. apply firstn_all2. lia. }
    destruct (slice_from buf offset) as [sub | ] eqn:Hsub.
    2:{ exfalso. unfold slice_from in Hsub.
        destruct (Z.leb_spec 0 offset); [ | lia].
        destruct (Z.leb_spec offset (Z.of_nat (length buf))); [ | lia].
        discriminate Hsub. }
    apply slice_from_Some in Hsub. destruct Hsub as (_ & Hsub & Hsublen).
    rewrite run_bind in Hrun.
    destruct (exec (recvFill bound sub) w) as [o1 w2] eqn:Hfill.
    apply (recvFill_loop_ok Hok) in Hfill.
    destruct Hfill as (sub1 & n & err & evs1 & -> & Htr1 & Hrd1 & Hl1 & _
                       & Hprog1 & Hacc1 & Hm).
    assert (Hwb : length (write_back buf (Z.to_nat offset) sub1) = length buf)
      by (apply write_back_length; lia).
    destruct err as [e | ].
    + injection Hrun as <- <-.
      exists (write_back buf (Z.to_nat offset) sub1), (Some e), evs1.
      split_all; auto; try lia.
      * intros Hp Hb. apply Hprog1; [exact Hp | exact Hb | lia].
      * destruct Hm as [_ [[He _] | Hin]]; [left; exact He | right; exact Hin].
    + destruct Hm as (Hn & Hsub1 & Hrecv & Hbytes).
      rewrite wrap_int_small in Hrun
        by (unfold int_range, int_len in *; lia).
      apply IH in Hrun; [ | unfold int_len in *; rewrite Hwb; exact Hlen
                          | rewrite Hwb; lia | rewrite Hwb; lia].
      destruct Hrun as (buf1 & err & evs2 & -> & Htr2 & Hrd2 & Hl2 & Hprog2 & Hm2).
      exists buf1, err, (evs1 ++ evs2).
      rewrite Htr2, Htr1, <- app_assoc.
      split_all; auto.
      * apply Forall_app. split; assumption.
      * congruence.
      * destruct err as [e | ].
        -- destruct Hm2 as [Hm2 Hacc2]. rewrite accepted_app.
           split; [ | lia].
           destruct Hm2 as [He | (len & r & Hin & Her)]; [left; exact He | ].
           right. exists len, r. split; [ | exact Her].
           apply in_or_app. right. exact Hin.
        -- destruct Hm2 as (Hb1 & Hb2 & Hb3).
           rewrite received_app, bytes_read_app, accepted_app.
           split; [ | lia].
           rewrite Hb1. rewrite write_back_tail by lia.
           rewrite Hsub1.
           replace (Z.to_nat (offset + n))
             with (length (firstn (Z.to_nat offset) buf) + length (received evs1))%nat
             by (rewrite length_firstn; lia).
           rewrite firstn_two_parts, <- app_assoc. reflexivity.
Qed.

Lemma recvPeek_loop_done (fuel : nat) (buf : list byte) (offset : Z) :
  Z.of_nat (length buf) <= offset ->
  recvPeek_loop bound fuel buf offset = Ret (buf, None).
Proof.
  intros H. destruct fuel; simpl;
    destruct (Z.ltb_spec offset (Z.of_nat (length buf))); try lia; reflexivity.
Qed.

Lemma slice_from_0 (buf : list byte) : slice_from buf 0 = Some buf.
Proof.
  unfold slice_from. simpl.
  destruct (Z.leb_spec 0 (Z.of_nat (length buf))); [reflexivity | lia].
Qed.

Lemma write_back_0_all (buf sub : list byte) :
  length sub = length buf -> write_back buf 0 sub = sub.
Proof.
  intros H. unfold write_back. simpl. rewrite skipn_all2 by lia.
  apply app_nil_r.
Qed.


(** C2. For a response whose decoded word count is [w], a successful
    [recvBody] has read exactly [w * 8] bytes from the connection, all of
    them into the start of the primary body buffer; the overflow buffer is
    never touched, whether the step succeeds or fails. *)
Theorem recvBody_reads_words (res res1 : Message) (err : option error)
    (w w1 : World Conn) :
  reader_ok conn_Read ->
  0 <= words res < 2 ^ 32 ->
  exec (recvBody bound res) w = (Returned (res1, err), w1) ->
  body2 res1 = body2 res /\
  exists evs,
    trace w1 = trace w ++ evs /\ Forall is_read evs /\
    (err = None ->
     bytes_read evs = words res * 8 /\
     Z.of_nat (length (received evs)) = words res * 8 /\
     elems (Bytes (body1 res1))
       = received evs ++ skipn (Z.to_nat (words res * 8)) (elems (Bytes (body1 res)))).
Proof.
  intros Hok Hw Hrun. unfold recvBody in Hrun.
  rewrite (wrap_int_small (z := words res)) in Hrun by (unfold int_range; lia).
  unfold messageWordSize in Hrun.
  rewrite wrap_int_small in Hrun by (unfold int_range; lia).
  destruct (slice_to (elems (Bytes (body1 res))) (words res * 8)) as [buf | ] eqn:Hs;
    [ | discriminate Hrun].
  apply slice_to_Some in Hs. destruct Hs as (Hn & Hbuf & Hbl).
  rewrite run_bind in Hrun.
  destruct (exec (recvPeek bound buf) w) as [o w2] eqn:Hpeek.
  unfold recvPeek in Hpeek.
  apply (recvPeek_loop_ok Hok) in Hpeek;
    [ | unfold int_len; lia | lia | lia].
  destruct Hpeek as (buf1 & err1 & evs & -> & Htr & Hrd & Hl & _ & Hm).
  assert (Hres : res1 = set_body1_bytes res
                   (write_back (elems (Bytes (body1 res))) 0 buf1) /\ w1 = w2
                 /\ (err = None -> err1 = None)).
  { destruct err1; injection Hrun as <- <- <-; split_all; auto; discriminate. }
  destruct Hres as (-> & -> & Herr).
  split; [reflexivity | ].
  exists evs. split; [exact Htr | ]. split; [exact Hrd | ].
  intros He. specialize (Herr He). subst err1.
  destruct Hm as (Hb1 & Hb2 & _). simpl in Hb1.
  split; [lia | ]. split; [rewrite <- Hb1; lia | ].
  - unfold set_body1_bytes. simpl.
    destruct (Bytes (body1 res)) as [bytes | ] eqn:HB; simpl in *.
    + unfold write_back. simpl. rewrite Hb1 at 1. f_equal. f_equal. lia.
    + assert (Hnil : buf1 = []) by (apply length_zero_iff_nil; lia).
      rewrite <- Hb1, Hnil. rewrite skipn_nil. reflexivity.
Qed.

(** C10. When the decoded word count [w] has [w * 8] above the length of
    the primary body buffer, [recvBody] is the out-of-range slice panic: it
    performs no read and returns no error.  Nothing on the receive path
    checks the size first: once a header announcing such a count has been
    received, [recv] panics instead of returning an error. *)
Theorem recvBody_oversized_panics (res : Message)
    (b0 b1 b2 b3 b4 b5 b6 b7 : byte) (w w1 : World Conn) :
  (0 <= words res < 2 ^ 32 ->
   Z.of_nat (length (elems (Bytes (body1 res)))) < words res * 8 ->
   recvBody bound res = Panic SliceBoundsOutOfRange) /\
  (exec (recvPeek bound (header res)) w
     = (Returned ([b0; b1; b2; b3; b4; b5; b6; b7], None), w1) ->
   Z.of_nat (length (elems (Bytes (body1 res)))) < le_uint [b0; b1; b2; b3] * 8 ->
   exec (recv bound res) w = (Panicked SliceBoundsOutOfRange, w1)).
Proof.
  assert (Hpanic : forall m, 0 <= words m < 2 ^ 32 ->
            Z.of_nat (length (elems (Bytes (body1 m)))) < words m * 8 ->
            recvBody bound m = Panic SliceBoundsOutOfRange).
  { intros m Hw Hbig. unfold recvBody.
    rewrite (wrap_int_small (z := words m)) by (unfold int_range; lia).
    unfold messageWordSize.
    rewrite wrap_int_small by (unfold int_range; lia).
    assert (Hnone : slice_to (elems (Bytes (body1 m))) (words m * 8) = None)
      by (apply slice_to_None; lia).
    rewrite Hnone. reflexivity. }
  split; [apply Hpanic | ].
  intros Hpeek Hbig.
  destruct (recvHeader_run res w Hpeek)
    as (res1 & Hhdr & _ & Hwords & _ & _ & _ & _ & _ & Hb1 & _).
  unfold recv. rewrite run_bind, Hhdr. cbv beta iota.
  rewrite Hpanic; [reflexivity | | rewrite Hb1, Hwords; exact Hbig].
  rewrite Hwords.
  pose proof (le_uint_range [b0; b1; b2; b3]) as Hr. simpl length in Hr.
  change (256 ^ Z.of_nat 4) with (2 ^ 32) in Hr. exact Hr.
Qed.

(** *** Empty reads *)

Lemma recvFill_loop_empty (Hempty : always_empty conn_Read) (i : nat)
    (buf : list byte) (w : World Conn) :
  exists buf1 evs c1,
    exec (recvFill_loop i buf) w
      = (Returned (buf1, (-1, Some ErrNoProgress)),
         mkWorld (mu w) c1 (trace w ++ evs)) /\
    length evs = i /\ Forall empty_read evs.
Proof.
  revert buf w. induction i as [ | i IH]; intros buf w; simpl.
  - exists buf, [], (conn w). rewrite app_nil_r. destruct w; auto.
  - destruct (conn_Read (conn w) (length buf)) as [r c] eqn:Hrd.
    pose proof Hempty as Hr. unfold always_empty in Hr.
    specialize (Hr (conn w) (length buf)). rewrite Hrd in Hr. simpl in Hr.
    destruct Hr as [Hn He]. rewrite Hn, He. simpl.
    destruct (IH (overwrite buf (rd_data r))
                 (mkWorld (mu w) c (trace w ++ [EvRead (length buf) r])))
      as (buf1 & evs & c1 & Hrun & Hlen & Hall).
    simpl in Hrun.
    exists buf1, (EvRead (length buf) r :: evs), c1.
    rewrite Hrun, <- app_assoc. simpl.
    split; [reflexivity | ]. split; [lia | ].
    constructor; [simpl; auto | exact Hall].
Qed.

Lemma recvFill_loop_progress (k i : nat) (buf : list byte) (w : World Conn)
    (c1 c2 : Conn) (r : read_result) :
  (k < i)%nat ->
  empty_reads conn_Read k (conn w) (length buf) c1 ->
  conn_Read c1 (length buf) = (r, c2) ->
  rd_err r = None -> 0 < rd_n r ->
  exists buf1 evs,
    exec (recvFill_loop i buf) w
      = (Returned (buf1, (rd_n r, None)), mkWorld (mu w) c2 (trace w ++ evs)) /\
    length evs = S k /\ length buf1 = length buf.
Proof.
  revert i buf w. induction k as [ | k IH]; intros i buf w Hk Hempty Hrd He Hn;
    (destruct i as [ | i]; [lia | ]); simpl in Hempty |- *.
  - subst c1. rewrite Hrd, He.
    destruct (Z.ltb_spec (rd_n r) 0); [lia | ].
    destruct (Z.ltb_spec 0 (rd_n r)); [ | lia].
    simpl. exists (overwrite buf (rd_data r)), [EvRead (length buf) r].
    rewrite overwrite_length. auto.
  - destruct (conn_Read (conn w) (length buf)) as [r0 c0] eqn:Hrd0.
    destruct Hempty as (Hn0 & He0 & Hrest).
    rewrite Hn0, He0. simpl.
    destruct (IH i (overwrite buf (rd_data r0))
                 (mkWorld (mu w) c0 (trace w ++ [EvRead (length buf) r0])))
      as (buf1 & evs & Hrun & Hlen & Hbl);
      try (rewrite ?overwrite_length; simpl; assumption); [lia | ].
    simpl in Hrun. rewrite overwrite_length in Hbl.
    exists buf1, (EvRead (length buf) r0 :: evs).
    rewrite Hrun, <- app_assoc. simpl. auto.
Qed.

(** C5. On a stream whose every read returns no bytes and no error,
    [recvPeek] (ReadExact) on a non-empty buffer fails with
    [io.ErrNoProgress] after exactly [messageMaxConsecutiveEmptyReads]
    reads, all of them empty.  Fewer empty reads than the bound, followed by
    a read that makes progress, do not produce the error: [recvFill] returns
    that read's count, and [recvPeek] succeeds when the read fills the
    buffer. *)
Theorem recvPeek_no_progress_bound (buf : list byte) (w : World Conn)
    (k : nat) (c1 c2 : Conn) (r : read_result) :
  buf <> [] ->
  (always_empty conn_Read ->
   exists buf1 evs w1,
     exec (recvPeek bound buf) w = (Returned (buf1, Some ErrNoProgress), w1) /\
     trace w1 = trace w ++ evs /\
     length evs = bound /\ Forall empty_read evs) /\
  ((k < bound)%nat ->
   empty_reads conn_Read k (conn w) (length buf) c1 ->
   conn_Read c1 (length buf) = (r, c2) ->
   rd_err r = None -> 0 < rd_n r ->
   (exists buf1 evs,
      exec (recvFill bound buf) w
        = (Returned (buf1, (rd_n r, None)), mkWorld (mu w) c2 (trace w ++ evs)) /\
      length evs = S k) /\
   (int_len buf -> rd_n r = Z.of_nat (length buf) ->
    exists buf1 evs,
      exec (recvPeek bound buf) w
        = (Returned (buf1, None), mkWorld (mu w) c2 (trace w ++ evs)) /\
      length evs = S k)).
Proof.
  intros Hne.
  assert (Hpos : 0 < Z.of_nat (length buf)).
  { destruct buf; [congruence | simpl length; lia]. }
  assert (Hpeek :
            exec (recvPeek bound buf) w =
            match exec (recvFill bound buf) w with
            | (Returned (sub1, (n, Some e)), w1) =>
                (Returned (write_back buf 0 sub1, Some e), w1)
            | (Returned (sub1, (n, None)), w1) =>
                exec (recvPeek_loop bound (length buf) (write_back buf 0 sub1)
                        (wrap_int (0 + n))) w1
            | (Panicked x, w1) => (Panicked x, w1)
            | (Blocked, w1) => (Blocked, w1)
            | (Diverged, w1) => (Diverged, w1)
            end).
  { unfold recvPeek. simpl recvPeek_loop.
    destruct (Z.ltb_spec 0 (Z.of_nat (length buf))); [ | lia].
    rewrite slice_from_0, run_bind.
    destruct (exec (recvFill bound buf) w) as [[[sub1 [n [e | ]]] | | | ] w1];
      reflexivity. }
  split.
  - intros Hempty.
    destruct (recvFill_loop_empty Hempty bound buf w)
      as (buf1 & evs & c & Hrun & Hlen & Hall).
    unfold recvFill in Hpeek. rewrite Hrun in Hpeek.
    exists (write_back buf 0 buf1), evs, (mkWorld (mu w) c (trace w ++ evs)).
    auto.
  - intros Hk Hempty Hrd He Hn.
    destruct (@recvFill_loop_progress k bound buf w c1 c2 r Hk Hempty Hrd He Hn)
      as (buf1 & evs & Hrun & Hlen & Hbl).
    split; [exists buf1, evs; auto | ].
    intros Hint Hfull.
    unfold recvFill in Hpeek. rewrite Hrun in Hpeek.
    rewrite write_back_0_all in Hpeek by exact Hbl.
    rewrite wrap_int_small in Hpeek
      by (unfold int_range, int_len in *; lia).
    rewrite recvPeek_loop_done in Hpeek by lia.
    exists buf1, evs. auto.
Qed.

(** *** The deferred unlock and totality of the receive path *)

Lemma run_defer_Unlock (wr rd dv : bool) {A : Type} (p : prog A) :
  conn_only wr rd dv p ->
  forall w : World Conn, mu w = true ->
    exec (defer_Unlock p) w =
    match exec p w with
    | (Diverged, w1) => (Diverged, w1)
    | (o, w1) => (o, mkWorld false (conn w1) (trace w1))
    end.
Proof.
  intros Hp. induction Hp as [a|x|Hdv|d k Hwr _ IH|n k Hrd _ IH];
    intros w Hmu; simpl.
  - rewrite Hmu. reflexivity.
  - rewrite Hmu. reflexivity.
  - reflexivity.
  - destruct (conn_Write (conn w) d) as [r c]. apply IH. exact Hmu.
  - destruct (conn_Read (conn w) n) as [r c]. apply IH. exact Hmu.
Qed.

Lemma wrap_int_range (z : Z) : int_range (wrap_int z).
Proof.
  unfold int_range, wrap_int.
  pose proof (Z.mod_pos_bound (z + 2 ^ 63) (2 ^ 64)). lia.
Qed.

Lemma recvHeader_total (Hty : conn_typed conn_Read) (res : Message)
    (w w1 : World Conn) (o : outcome (Message * option error)) :
  int_len (header res) ->
  exec (recvHeader bound res) w = (o, w1) -> o <> Diverged.
Proof.
  intros Hlen Hrun. unfold recvHeader in Hrun. rewrite run_bind in Hrun.
  destruct (exec (recvPeek bound (header res)) w) as [o1 w2] eqn:Hpeek.
  apply (recvPeek_total Hty) in Hpeek; [ | exact Hlen].
  destruct o1 as [[h [e | ]] | x | | ]; try congruence.
  - injection Hrun as <- <-. discriminate.
  - destruct (Uint32 h); destruct (nth_error h 4); destruct (nth_error h 5);
      destruct (slice_from h 6) as [tl | ]; try destruct (Uint16 tl);
      injection Hrun as <- <-; discriminate.
Qed.

Lemma recvBody_total (Hty : conn_typed conn_Read) (res : Message)
    (w w1 : World Conn) (o : outcome (Message * option error)) :
  exec (recvBody bound res) w = (o, w1) -> o <> Diverged.
Proof.
  intros Hrun. unfold recvBody in Hrun.
  set (n := wrap_int (wrap_int (words res) * messageWordSize)) in Hrun.
  destruct (slice_to (elems (Bytes (body1 res))) n) as [buf | ] eqn:Hs.
  2:{ injection Hrun as <- <-. discriminate. }
  apply slice_to_Some in Hs. destruct Hs as (Hn & _ & Hbl).
  rewrite run_bind in Hrun.
  destruct (exec (recvPeek bound buf) w) as [o1 w2] eqn:Hpeek.
  apply (recvPeek_total Hty) in Hpeek.
  2:{ pose proof (wrap_int_range (wrap_int (words res) * messageWordSize)) as Hr.
      fold n in Hr. unfold int_range in Hr. unfold int_len. lia. }
  destruct o1 as [[h [e | ]] | x | | ]; try congruence;
    injection Hrun as <- <-; discriminate.
Qed.

(** *** [send] *)





(** *** [Call], phase by phase *)

Lemma send_run (req : Message) (w : World Conn) :
  exec (send req) w =
  match exec (sendHeader req) w with
  | (Returned (Some e), wa) => (Returned (Some (Wrap e "failed to send header")), wa)
  | (Returned None, wa) =>
      match exec (sendBody req) wa with
      | (Returned (Some e), wb) => (Returned (Some (Wrap e "failed to send body")), wb)
      | (Returned None, wb) => (Returned None, wb)
      | (Panicked x, wb) => (Panicked x, wb)
      | (Blocked, wb) => (Blocked, wb)
      | (Diverged, wb) => (Diverged, wb)
      end
  | (Panicked x, wa) => (Panicked x, wa)
  | (Blocked, wa) => (Blocked, wa)
  | (Diverged, wa) => (Diverged, wa)
  end.
Proof.
  unfold send. rewrite run_bind.
  destruct (exec (sendHeader req) w) as [[[e | ] | x | | ] wa]; try reflexivity.
  rewrite run_bind.
  destruct (exec (sendBody req) wa) as [[[e | ] | x | | ] wb]; reflexivity.
Qed.

Lemma recv_run (res : Message) (w : World Conn) :
  exec (recv bound res) w =
  match exec (recvHeader bound res) w with
  | (Returned (res1, Some e), wa) =>
      (Returned (res1, Some (Wrap e "failed to receive header")), wa)
  | (Returned (res1, None), wa) =>
      match exec (recvBody bound res1) wa with
      | (Returned (res2, Some e), wb) =>
          (Returned (res2, Some (Wrap e "failed to receive body")), wb)
      | (Returned (res2, None), wb) => (Returned (res2, None), wb)
      | (Panicked x, wb) => (Panicked x, wb)
      | (Blocked, wb) => (Blocked, wb)
      | (Diverged, wb) => (Diverged, wb)
      end
  | (Panicked x, wa) => (Panicked x, wa)
  | (Blocked, wa) => (Blocked, wa)
  | (Diverged, wa) => (Diverged, wa)
  end.
Proof.
  unfold recv. rewrite run_bind.
  destruct (exec (recvHeader bound res) w) as [[[res1 [e | ]] | x | | ] wa];
    try reflexivity.
  rewrite run_bind.
  destruct (exec (recvBody bound res1) wa) as [[[res2 [e | ]] | x | | ] wb];
    reflexivity.
Qed.

Lemma Call_body_run (request response : Message) (w : World Conn) :
  exec (Call_body bound request response) w =
  match exec (send request) w with
  | (Returned (Some e), wa) =>
      (Returned (response, Some (Wrap e "failed to send request")), wa)
  | (Returned None, wa) =>
      match exec (recv bound response) wa with
      | (Returned (res, Some e), wb) =>
          (Returned (res, Some (Wrap e "failed to receive response")), wb)
      | (Returned (res, None), wb) => (Returned (res, None), wb)
      | (Panicked x, wb) => (Panicked x, wb)
      | (Blocked, wb) => (Blocked, wb)
      | (Diverged, wb) => (Diverged, wb)
      end
  | (Panicked x, wa) => (Panicked x, wa)
  | (Blocked, wa) => (Blocked, wa)
  | (Diverged, wa) => (Diverged, wa)
  end.
Proof.
  unfold Call_body. rewrite run_bind.
  destruct (exec (send request) w) as [[[e | ] | x | | ] wa]; try reflexivity.
  rewrite run_bind.
  destruct (exec (recv bound response) wa) as [[[res [e | ]] | x | | ] wb];
    reflexivity.
Qed.

Lemma run_MuLock {A : Type} (k : prog A) (w : World Conn) :
  exec (MuLock k) w = if mu w then (Blocked, w) else exec k (locked w).
Proof. reflexivity. Qed.

Lemma Call_run (ctx : Context) (request response : Message) (w : World Conn) :
  mu w = false ->
  exec (Call bound ctx request response) w =
  match exec (Call_body bound request response) (locked w) with
  | (Diverged, w1) => (Diverged, w1)
  | (o, w1) => (o, unlocked w1)
  end.
Proof.
  intros Hmu. unfold Call. rewrite run_MuLock, Hmu.
  apply (run_defer_Unlock (Call_body_shape request response)). reflexivity.
Qed.

Lemma Call_not_blocked (ctx : Context) (request response : Message)
    (w : World Conn) :
  mu w = false -> fst (exec (Call bound ctx request response) w) <> Blocked.
Proof.
  intros Hmu. rewrite Call_run by exact Hmu.
  destruct (exec (Call_body bound request response) (locked w)) as [o w1] eqn:Hrun.
  apply (conn_only_run (Call_body_shape request response)) in Hrun.
  destruct Hrun as (_ & Hb & _).
  destruct o; simpl; congruence.
Qed.

Lemma recv_total (Hty : conn_typed conn_Read) (res : Message)
    (w w1 : World Conn) (o : outcome (Message * option error)) :
  int_len (header res) ->
  exec (recv bound res) w = (o, w1) -> o <> Diverged.
Proof.
  intros Hlen Hrun. rewrite recv_run in Hrun.
  destruct (exec (recvHeader bound res) w) as [o1 wa] eqn:Hh.
  assert (Hd1 : o1 <> Diverged) by (eapply recvHeader_total; eauto).
  destruct o1 as [[res1 [e | ]] | x | | ]; try congruence.
  destruct (exec (recvBody bound res1) wa) as [o2 wb] eqn:Hb.
  assert (Hd2 : o2 <> Diverged) by (eapply recvBody_total; eauto).
  destruct o2 as [[res2 [e | ]] | x | | ]; congruence.
Qed.

Ltac run_call :=
  rewrite Call_run by assumption;
  rewrite Call_body_run, send_run;
  repeat (cbv beta iota;
          first [ rewrite recv_run
                | match goal with
                  | H : exec _ _ = (_, _) |- _ => rewrite H
                  end ]);
  cbv beta iota.

Ltac run_send :=
  rewrite send_run;
  repeat (cbv beta iota;
          match goal with
          | H : exec _ _ = (_, _) |- _ => rewrite H
          end);
  cbv beta iota.

Ltac shape_facts H lemma ws :=
  let Hmu := fresh "Hmu" in
  let Hnb := fresh "Hnb" in
  let Hnd := fresh "Hnd" in
  let Htr := fresh "Htr" in
  let Hrd := fresh "Hrd" in
  let Hwr := fresh "Hwr" in
  destruct (conn_only_run lemma _ H)
    as (Hmu & Hnb & Hnd & ws & Htr & Hrd & Hwr);
  simpl in Htr;
  try specialize (Hnd eq_refl);
  try specialize (Hrd eq_refl);
  try specialize (Hwr eq_refl).

Ltac close_leaf WS RS :=
  eexists _, _, WS, RS;
  split; [run_call; reflexivity | ];
  split; [reflexivity | ];
  split; [discriminate | ];
  split; [discriminate | ];
  split; [simpl;
          repeat match goal with H : trace _ = _ |- _ => rewrite H end;
          rewrite <- ?app_assoc, ?app_nil_r; reflexivity | ];
  split; [repeat (apply Forall_app; split); auto | ];
  split; [repeat (apply Forall_app; split); auto | ].

Ltac match_runs :=
  repeat match goal with
         | H1 : exec ?p ?w = _, H2 : exec ?p ?w = _ |- _ =>
             rewrite H1 in H2; inversion H2; subst; clear H2
         end.

Ltac phase_cases Hf :=
  match type of Hf with
  | phase_failed _ _ _ _ _ _ ?ph _ =>
      destruct ph; cbv beta iota delta [phase_failed] in Hf;
      [ destruct Hf as (? & Hf)
      | destruct Hf as (? & ? & Hf & ?)
      | destruct Hf as (? & ? & ? & Hf & ?)
      | destruct Hf as (? & ? & ? & ? & ? & Hf & ? & ?) ];
      match_runs; try discriminate
  end.

Ltac close_rest :=
  split; [intros ph inner Hf; phase_cases Hf; try (eexists; reflexivity) | ];
  split; [intros ph inner; destruct ph; reflexivity | ];
  intros; apply Call_not_blocked; reflexivity.

(** C7. A [Call] on a free gate sends before it receives: the operations
    on the connection are the writes of the send followed by the reads of
    the receive, and a read happens only after a complete send.  A failure
    of any of the four steps (send header, send body, receive header,
    receive body) ends the call with an error that wraps the step's error
    under the texts naming its phase, and an error is returned only so.
    The gate is released whatever the outcome, a panic included, so a
    further call is not blocked. *)
Theorem Call_phases (ctx : Context) (request response : Message)
    (w : World Conn) :
  conn_typed conn_Read -> int_len (header response) -> mu w = false ->
  exists o w1 ws rs,
    exec (Call bound ctx request response) w = (o, w1) /\
    mu w1 = false /\ o <> Blocked /\ o <> Diverged /\
    trace w1 = trace w ++ ws ++ rs /\ Forall is_write ws /\ Forall is_read rs /\
    (rs <> [] -> exists wa, exec (send request) (locked w) = (Returned None, wa)) /\
    (forall res e, o = Returned (res, Some e) ->
       exists ph inner,
         e = phase_error ph inner /\
         phase_failed bound conn_Read conn_Write request response (locked w)
                      ph inner) /\
    (forall ph inner,
       phase_failed bound conn_Read conn_Write request response (locked w)
                    ph inner ->
       exists res, o = Returned (res, Some (phase_error ph inner))) /\
    (forall ph inner,
       error_message (phase_error ph inner)
       = String.append (phase_prefix ph) (error_message inner)) /\
    (forall ctx2 request2 response2,
       fst (exec (Call bound ctx2 request2 response2) w1) <> Blocked).
Proof.
  intros Hty Hlen Hmu.
  destruct (exec (sendHeader request) (locked w)) as [o1 wa] eqn:Hsh.
  shape_facts Hsh (sendHeader_shape request) ws1.
  destruct o1 as [[e1 | ] | x | | ]; try congruence.
  - (* the header write fails *)
    assert (Hsend : exec (send request) (locked w)
                    = (Returned (Some (Wrap e1 "failed to send header")), wa))
      by (run_send; reflexivity).
    close_leaf ws1 (@nil event).
    split; [intros Hrs; congruence | ].
    split; [intros res e Heq; inversion Heq; subst;
            exists SendHeader, e1; split; [reflexivity | cbv beta iota delta [phase_failed]; eauto 12] | ].
    close_rest.
  - destruct (exec (sendBody request) wa) as [o2 wb] eqn:Hsb.
    shape_facts Hsb (sendBody_shape request) ws2.
    destruct o2 as [[e2 | ] | x | | ]; try congruence.
    + (* a body write fails *)
      assert (Hsend : exec (send request) (locked w)
                      = (Returned (Some (Wrap e2 "failed to send body")), wb))
        by (run_send; reflexivity).
      close_leaf (ws1 ++ ws2) (@nil event).
      split; [intros Hrs; congruence | ].
      split; [intros res e Heq; inversion Heq; subst;
              exists SendBody, e2; split; [reflexivity | cbv beta iota delta [phase_failed]; eauto 12] | ].
      close_rest.
    + assert (Hsend : exec (send request) (locked w) = (Returned None, wb))
        by (run_send; reflexivity).
      destruct (exec (recvHeader bound response) wb) as [o3 wc] eqn:Hrh.
      shape_facts Hrh (recvHeader_shape response) rs1.
      assert (Hd3 : o3 <> Diverged) by (eapply recvHeader_total; eauto).
      destruct o3 as [[res1 [e3 | ]] | x | | ]; try congruence.
      * (* receiving the header fails *)
        close_leaf (ws1 ++ ws2) rs1.
        split; [intros _; eauto | ].
        split; [intros res e Heq; inversion Heq; subst;
                exists RecvHeader, e3; split; [reflexivity | cbv beta iota delta [phase_failed]; eauto 12] | ].
        close_rest.
      * destruct (exec (recvBody bound res1) wc) as [o4 wd] eqn:Hrb.
        shape_facts Hrb (recvBody_shape res1) rs2.
        assert (Hd4 : o4 <> Diverged) by (eapply recvBody_total; eauto).
        destruct o4 as [[res2 [e4 | ]] | x | | ]; try congruence.
        -- (* receiving the body fails *)
           close_leaf (ws1 ++ ws2) (rs1 ++ rs2).
           split; [intros _; eauto | ].
           split; [intros res e Heq; inversion Heq; subst;
                   exists RecvBody, e4; split; [reflexivity | cbv beta iota delta [phase_failed]; eauto 12] | ].
           close_rest.
        -- (* success *)
           close_leaf (ws1 ++ ws2) (rs1 ++ rs2).
           split; [intros _; eauto | ].
           split; [intros res e Heq; discriminate Heq | ].
           close_rest.
        -- (* the body slice panics *)
           close_leaf (ws1 ++ ws2) (rs1 ++ rs2).
           split; [intros _; eauto | ].
           split; [intros res e Heq; discriminate Heq | ].
           close_rest.
      * (* decoding the header panics *)
        close_leaf (ws1 ++ ws2) rs1.
        split; [intros _; eauto | ].
        split; [intros res e Heq; discriminate Heq | ].
        close_rest.
    + (* slicing the request body panics *)
      assert (Hsend : exec (send request) (locked w) = (Panicked x, wb))
        by (run_send; reflexivity).
      close_leaf (ws1 ++ ws2) (@nil event).
      split; [intros Hrs; congruence | ].
      split; [intros res e Heq; discriminate Heq | ].
      close_rest.
  - (* sendHeader cannot panic, but the case is closed all the same *)
    assert (Hsend : exec (send request) (locked w) = (Panicked x, wa))
      by (run_send; reflexivity).
    close_leaf ws1 (@nil event).
    split; [intros Hrs; congruence | ].
    split; [intros res e Heq; discriminate Heq | ].
    close_rest.
Qed.

(** C9. [Call] never consults its context argument: for any two contexts
    and the same request, response and connection, the two calls are the
    same program, so they return the same result, perform the same
    operations on the connection and leave the same world; no deadline or
    cancellation reaches a read or a write. *)
Theorem Call_ignores_context (ctx1 ctx2 : Context) (request response : Message)
    (w : World Conn) :
  Call bound ctx1 request response = Call bound ctx2 request response /\
  exec (Call bound ctx1 request response) w
  = exec (Call bound ctx2 request response) w.
Proof.
  split; reflexivity.
Qed.

End RunFacts.

(** ** Goroutines: calls do not interleave *)

Lemma snoc_cases {A : Type} (l : list A) :
  l = [] \/ exists pre x, l = pre ++ [x].
Proof.
  induction l as [ | x l _] using rev_ind; [left; reflexivity | right; eauto].
Qed.

Lemma last_tid_snoc (tr : list (tid * event)) (t : tid) (e : event) :
  last_tid (tr ++ [(t, e)]) = Some t.
Proof.
  unfold last_tid. rewrite map_app. simpl. apply last_last.
Qed.

Lemma last_tid_In (tr : list (tid * event)) (t : tid) :
  last_tid tr = Some t -> In t (map fst tr).
Proof.
  destruct (snoc_cases tr) as [-> | (pre & [t0 e0] & ->)].
  - discriminate.
  - rewrite last_tid_snoc. intros H. injection H as <-.
    rewrite map_app. apply in_or_app. right. simpl. auto.
Qed.


Lemma not_in_snoc (a t : tid) (e : event) (l : list (tid * event)) :
  a <> t -> ~ In a (map fst l) -> ~ In a (map fst (l ++ [(t, e)])).
Proof.
  intros Hne Hnot Hin. rewrite map_app in Hin.
  apply in_app_or in Hin. destruct Hin as [Hin | [Hin | []]]; [auto | ].
  simpl in Hin. congruence.
Qed.



Lemma critical_not_entering {A : Type} (p : prog A) :
  critical p -> ~ entering p.
Proof. intros H; destruct H; simpl; auto. Qed.

Lemma critical_not_quiet {A : Type} (p : prog A) :
  critical p -> ~ quiet p.
Proof. intros H; destruct H; simpl; auto. Qed.

Section GoroutineFacts.

Variable messageMaxConsecutiveEmptyReads : nat.
Variable Conn : Type.
Variable conn_Read : Conn -> nat -> read_result * Conn.
Variable conn_Write : Conn -> list byte -> write_result * Conn.
Variable A : Type.

Local Abbreviation machine_step := (@step Conn conn_Read conn_Write A).
Local Abbreviation machine_steps := (@steps Conn conn_Read conn_Write A).

Lemma upd_same (pool : tid -> prog A) (t : tid) (p : prog A) :
  upd pool t p t = p.
Proof. unfold upd. rewrite Nat.eqb_refl. reflexivity. Qed.

Lemma upd_other (pool : tid -> prog A) (t t1 : tid) (p : prog A) :
  t1 <> t -> upd pool t p t1 = pool t1.
Proof.
  intros H. unfold upd. destruct (Nat.eqb_spec t1 t); [contradiction | reflexivity].
Qed.

(** A goroutine that performs an operation on the connection is inside its
    critical section, and stays there. *)
Lemma conn_step_inv (m : Machine Conn A) (t : tid) (ev : event) (c : Conn)
    (p : prog A) :
  mutex_inv m -> critical (m_pool m t) -> critical p ->
  mutex_inv (mkMachine (m_mu m) c (m_trace m ++ [(t, ev)]) (upd (m_pool m) t p)).
Proof.
  intros [Hph Hheld Hone Hfresh Hlast Hser] Hct Hcp.
  assert (Honly : forall t1, critical (upd (m_pool m) t p t1) -> t1 = t).
  { intros t1 H1. destruct (Nat.eq_dec t1 t) as [-> | Hne]; [reflexivity | ].
    rewrite upd_other in H1 by exact Hne. apply (Hone t1 t H1 Hct). }
  constructor; simpl.
  - intros t1. destruct (Nat.eq_dec t1 t) as [-> | Hne].
    + rewrite upd_same. auto.
    + rewrite upd_other by exact Hne. apply Hph.
  - intros t1 H1. apply (Hheld t). exact Hct.
  - intros t1 t2 H1 H2. rewrite (Honly t1 H1), (Honly t2 H2). reflexivity.
  - intros t1 H1. destruct (Nat.eq_dec t1 t) as [-> | Hne].
    + rewrite upd_same in H1. exfalso.
      exact (critical_not_entering Hcp H1).
    + rewrite upd_other in H1 by exact Hne.
      apply not_in_snoc; [exact Hne | apply Hfresh; exact H1].
  - intros t1 H1. rewrite (Honly t1 H1). right. apply last_tid_snoc.
  - destruct (Hlast t Hct) as [Hnew | Hsame].
    + apply serial_new; assumption.
    + apply serial_same; assumption.
Qed.

Lemma step_inv (m m1 : Machine Conn A) :
  mutex_inv m -> machine_step m m1 -> mutex_inv m1.
Proof.
  intros Hinv Hstep.
  destruct Hstep as [m t k Hp Hfree | m t k Hp Hheld | m t d k r c Hp Hw
                    | m t n k r c Hp Hr].
  - (* Lock *)
    destruct Hinv as [Hph Hheld Hone Hfresh Hlast Hser].
    assert (Hnone : forall t1, ~ critical (m_pool m t1)).
    { intros t1 H1. rewrite (Hheld t1 H1) in Hfree. discriminate. }
    assert (Hk : critical k).
    { destruct (Hph t) as [He | [Hc | Hq]]; rewrite Hp in *; simpl in *;
        [exact He | inversion Hc | contradiction]. }
    assert (Ht : ~ In t (map fst (m_trace m))).
    { apply Hfresh. rewrite Hp. exact Hk. }
    assert (Honly : forall t1, critical (upd (m_pool m) t k t1) -> t1 = t).
    { intros t1 H1. destruct (Nat.eq_dec t1 t) as [-> | Hne]; [reflexivity | ].
      rewrite upd_other in H1 by exact Hne. destruct (Hnone t1 H1). }
    constructor; simpl.
    + intros t1. destruct (Nat.eq_dec t1 t) as [-> | Hne].
      * rewrite upd_same. auto.
      * rewrite upd_other by exact Hne. apply Hph.
    + reflexivity.
    + intros t1 t2 H1 H2. rewrite (Honly t1 H1), (Honly t2 H2). reflexivity.
    + intros t1 H1. destruct (Nat.eq_dec t1 t) as [-> | Hne].
      * exact Ht.
      * rewrite upd_other in H1 by exact Hne. apply Hfresh. exact H1.
    + intros t1 H1. rewrite (Honly t1 H1). left. exact Ht.
    + exact Hser.
  - (* Unlock *)
    destruct Hinv as [Hph Hheld1 Hone Hfresh Hlast Hser].
    assert (Hct : critical (m_pool m t) /\ quiet k).
    { destruct (Hph t) as [He | [Hc | Hq]]; rewrite Hp in *; simpl in *;
        [contradiction | | contradiction].
      split; [exact Hc | inversion Hc; assumption]. }
    destruct Hct as [Hct Hq].
    assert (Hnone : forall t1, ~ critical (upd (m_pool m) t k t1)).
    { intros t1 H1. destruct (Nat.eq_dec t1 t) as [-> | Hne].
      - rewrite upd_same in H1. exact (critical_not_quiet H1 Hq).
      - rewrite upd_other in H1 by exact Hne.
        apply Hne. apply (Hone t1 t H1 Hct). }
    constructor; simpl.
    + intros t1. destruct (Nat.eq_dec t1 t) as [-> | Hne].
      * rewrite upd_same. auto.
      * rewrite upd_other by exact Hne. apply Hph.
    + intros t1 H1. destruct (Hnone t1 H1).
    + intros t1 t2 H1 H2. destruct (Hnone t1 H1).
    + intros t1 H1. destruct (Nat.eq_dec t1 t) as [-> | Hne].
      * rewrite upd_same in H1. destruct k; simpl in *; contradiction.
      * rewrite upd_other in H1 by exact Hne. apply Hfresh. exact H1.
    + intros t1 H1. destruct (Nat.eq_dec t1 t) as [-> | Hne]; destruct (Hnone _ H1).
    + exact Hser.
  - (* Write *)
    assert (Hct : critical (m_pool m t) /\ critical (k r)).
    { destruct (inv_phase Hinv t) as [He | [Hc | Hq]]; rewrite Hp in *;
        simpl in *; [contradiction | | contradiction].
      split; [exact Hc | inversion Hc; subst; auto]. }
    apply conn_step_inv; tauto.
  - (* Read *)
    assert (Hct : critical (m_pool m t) /\ critical (k r)).
    { destruct (inv_phase Hinv t) as [He | [Hc | Hq]]; rewrite Hp in *;
        simpl in *; [contradiction | | contradiction].
      split; [exact Hc | inversion Hc; subst; auto]. }
    apply conn_step_inv; tauto.
Qed.

Lemma steps_inv (m m1 : Machine Conn A) :
  mutex_inv m -> machine_steps m m1 -> mutex_inv m1.
Proof.
  intros Hinv Hsteps. induction Hsteps as [ | m1 m2 m3 _ IH Hstep].
  - exact Hinv.
  - eapply step_inv; [apply IH; exact Hinv | exact Hstep].
Qed.

Lemma start_inv (c : Conn) (pool : tid -> prog A) :
  (forall t, entering (pool t)) -> mutex_inv (mkMachine false c [] pool).
Proof.
  intros Hent. constructor; simpl.
  - intros t. left. apply Hent.
  - intros t Hc. destruct (critical_not_entering Hc (Hent t)).
  - intros t1 t2 Hc. destruct (critical_not_entering Hc (Hent t1)).
  - intros t _ [].
  - intros t _. left. intros [].
  - constructor.
Qed.

End GoroutineFacts.


(** ** The heartbeat loop stops at the first failure *)

Section HeartbeatFacts.

Variable messageMaxConsecutiveEmptyReads : nat.
Variable Conn : Type.
Variable conn_Read : Conn -> nat -> read_result * Conn.
Variable conn_Write : Conn -> list byte -> write_result * Conn.
Variable EncodeHeartbeat : Message -> Z -> Message.
Variable DecodeServers : Message -> Message * (list string + error).
Variable Store : Type.
Variable store_Set : Store -> Context -> list string -> option error * Store.
Variable closed : nat -> bool.
Variable now : nat -> Z.

Local Abbreviation iter :=
  (heartbeat_iter messageMaxConsecutiveEmptyReads conn_Read conn_Write
     EncodeHeartbeat DecodeServers store_Set closed now).
Local Abbreviation loop :=
  (heartbeat_loop messageMaxConsecutiveEmptyReads conn_Read conn_Write
     EncodeHeartbeat DecodeServers store_Set closed now).

Lemma loop_stops (fuel i : nat) (s s1 : HbState Conn Store) :
  iter i s = Stop s1 -> loop (S fuel) i s = Stop s1.
Proof. intros H. simpl. rewrite H. reflexivity. Qed.

Lemma loop_continues (fuel i : nat) (s s1 : HbState Conn Store) :
  iter i s = Continue s1 -> loop (S fuel) i s = loop fuel (S i) s1.
Proof. intros H. simpl. rewrite H. reflexivity. Qed.

(** C8. In a pass of the heartbeat loop that reaches the call: if [Call]
    returns an error, or [DecodeServers] fails, or [store.Set] fails, the
    loop has stopped, whatever budget of further passes it is given, and
    its log ends with that pass: the call alone, the call and the decode,
    or the call, the decode and the one failed [Set].  Otherwise the pass
    publishes exactly one [Set], with the decoded list, and the loop goes
    on to the next pass. *)
Theorem heartbeat_stops_on_failure (i : nat) (s : HbState Conn Store)
    (ctx0 : Context) (response : Message) (err : option error)
    (w : World Conn) :
  closed i = false ->
  run conn_Read conn_Write
      (Call messageMaxConsecutiveEmptyReads ctx0
            (EncodeHeartbeat (hb_request s) (wrap_uint64 (now i)))
            (hb_response s))
      (hb_world s)
    = (Returned (response, err), w) ->
  let ctx := mkContext (Some (now i + 1)) true in
  (forall e, err = Some e ->
     forall fuel, exists s1,
       loop (S fuel) i s = Stop s1 /\ hb_log s1 = hb_log s ++ [HbCall] /\
       hb_store s1 = hb_store s) /\
  (forall response1 e, err = None ->
     DecodeServers response = (response1, inr e) ->
     forall fuel, exists s1,
       loop (S fuel) i s = Stop s1 /\
       hb_log s1 = hb_log s ++ [HbCall; HbDecode] /\
       hb_store s1 = hb_store s) /\
  (forall response1 addresses e store1, err = None ->
     DecodeServers response = (response1, inl addresses) ->
     store_Set (hb_store s) ctx addresses = (Some e, store1) ->
     forall fuel, exists s1,
       loop (S fuel) i s = Stop s1 /\
       hb_log s1 = hb_log s ++ [HbCall; HbDecode; HbSet addresses]) /\
  (forall response1 addresses store1, err = None ->
     DecodeServers response = (response1, inl addresses) ->
     store_Set (hb_store s) ctx addresses = (None, store1) ->
     exists s1,
       iter i s = Continue s1 /\
       hb_log s1 = hb_log s ++ [HbCall; HbDecode; HbSet addresses] /\
       hb_store s1 = store1 /\
       forall fuel, loop (S fuel) i s = loop fuel (S i) s1).
Proof.
  intros Hopen Hcall ctx.
  assert (Hiter :
            iter i s =
            match err with
            | Some _ =>
                Stop (mkHb (EncodeHeartbeat (hb_request s) (wrap_uint64 (now i)))
                           response w (hb_store s) (hb_log s ++ [HbCall]))
            | None =>
                let (response1, decoded) := DecodeServers response in
                match decoded with
                | inr _ =>
                    Stop (mkHb (EncodeHeartbeat (hb_request s) (wrap_uint64 (now i)))
                               response1 w (hb_store s)
                               ((hb_log s ++ [HbCall]) ++ [HbDecode]))
                | inl addresses =>
                    let (err1, store1) := store_Set (hb_store s) ctx addresses in
                    match err1 with
                    | Some _ =>
                        Stop (mkHb (EncodeHeartbeat (hb_request s) (wrap_uint64 (now i)))
                                   response1 w store1
                                   (((hb_log s ++ [HbCall]) ++ [HbDecode])
                                      ++ [HbSet addresses]))
                    | None =>
                        Continue (mkHb (EncodeHeartbeat (hb_request s) (wrap_uint64 (now i)))
                                       response1 w store1
                                       (((hb_log s ++ [HbCall]) ++ [HbDecode])
                                          ++ [HbSet addresses]))
                    end
                end
            end).
  { unfold heartbeat_iter. rewrite Hopen.
    change (Call messageMaxConsecutiveEmptyReads
              (mkContext (Some (now i + 1)) false))
      with (Call messageMaxConsecutiveEmptyReads ctx0).
    rewrite Hcall. reflexivity. }
  split; [ | split; [ | split]].
  - intros e -> fuel. eexists. split; [apply loop_stops; exact Hiter | ].
    split; reflexivity.
  - intros response1 e -> Hdec fuel. rewrite Hdec in Hiter.
    rewrite <- !app_assoc in Hiter.
    eexists. split; [apply loop_stops; exact Hiter | ].
    split; reflexivity.
  - intros response1 addresses e store1 -> Hdec Hset fuel.
    rewrite Hdec, Hset in Hiter. rewrite <- !app_assoc in Hiter.
    eexists. split; [apply loop_stops; exact Hiter | ].
    reflexivity.
  - intros response1 addresses store1 -> Hdec Hset.
    rewrite Hdec, Hset in Hiter. rewrite <- !app_assoc in Hiter.
    eexists. split; [exact Hiter | ].
    split; [reflexivity | ].
    split; [reflexivity | ].
    intros fuel. apply loop_continues. exact Hiter.
Qed.

End HeartbeatFacts.

(** ** Concrete connections *)

Lemma chunk_reader_ok (k : nat) : reader_ok (chunk_Read k).
Proof.
  intros c len. simpl. rewrite length_firstn, Nat2Z.id.
  pose proof (Nat.le_min_l (Nat.min k len) (length c)).
  pose proof (Nat.le_min_r k len). split; [lia | reflexivity].
Qed.

Lemma chunk_typed : conn_typed (chunk_Read 4).
Proof.
  intros c len. unfold chunk_Read. cbn [fst rd_n].
  rewrite length_firstn. unfold int_range.
  pose proof (Nat.le_min_l (Nat.min 4 len) (length c)).
  pose proof (Nat.le_min_l 4 len). lia.
Qed.

Lemma ticker_reader_ok : reader_ok ticker_Read.
Proof.
  intros c [ | len]; simpl; lia.
Qed.


Lemma idle_always_empty : always_empty idle_Read.
Proof.
  intros c len. simpl. auto.
Qed.

(** ** The theorems at concrete inputs *)

(** C1 at the header [02 00 00 00 05 00 00 00]: two words, type 5. *)
Lemma recvHeader_layout_witness :
  exists res1,
    run script_Read script_Write (recvHeader 100 (Init 512))
        (mkWorld false ([reads example_header], []) [])
      = (Returned (res1, None),
         mkWorld false ([], []) [EvRead 8 (reads example_header)]) /\
    words res1 = 2 /\ mtype res1 = x05 /\ flags res1 = x00 /\ extra res1 = 0.
Proof.
  destruct (@recvHeader_layout 100 script script_Read script_Write (Init 512)
              x02 x00 x00 x00 x05 x00 x00 x00
              (mkWorld false ([reads example_header], []) [])
              (mkWorld false ([], []) [EvRead 8 (reads example_header)]))
    as (res1 & Hrun & _ & Hw & _ & Ht & Hf & Hx & _).
  - vm_compute. reflexivity.
  - exists res1. split; [exact Hrun | ].
    split; [rewrite Hw; reflexivity | ].
    split; [exact Ht | ]. split; [exact Hf | ].
    rewrite Hx. reflexivity.
Defined.

(** C2 at a response of two words, read in chunks of at most four bytes. *)
Lemma recvBody_reads_words_witness :
  exists res1 w1 evs,
    run (chunk_Read 4) accept_Write (recvBody 100 (set_fields (Init 16) 2 x05 x00 0))
        (mkWorld false example_body [])
      = (Returned (res1, None), w1) /\
    trace w1 = evs /\ bytes_read evs = 16 /\
    Bytes (body1 res1) = Some example_body /\
    body2 res1 = mkBuffer None 0.
Proof.
  destruct (run (chunk_Read 4) accept_Write
                (recvBody 100 (set_fields (Init 16) 2 x05 x00 0))
                (mkWorld false example_body []))
    as [o w1] eqn:Hrun.
  assert (Ho : o = Returned
                 (set_body1_bytes (set_fields (Init 16) 2 x05 x00 0) example_body,
                  None)).
  { vm_compute in Hrun. injection Hrun as <- _. reflexivity. }
  subst o.
  destruct (@recvBody_reads_words 100 (list byte) (chunk_Read 4) accept_Write
              (set_fields (Init 16) 2 x05 x00 0)
              (set_body1_bytes (set_fields (Init 16) 2 x05 x00 0) example_body)
              None (mkWorld false example_body []) w1
              (chunk_reader_ok 4))
    as (Hb2 & evs & Htr & _ & Hok).
  - simpl. lia.
  - exact Hrun.
  - destruct (Hok eq_refl) as (Hbytes & _ & _).
    exists (set_body1_bytes (set_fields (Init 16) 2 x05 x00 0) example_body),
           w1, evs.
    split; [reflexivity | ].
    split; [rewrite Htr; reflexivity | ].
    split; [exact Hbytes | ].
    split; reflexivity.
Defined.



(** C5 on the idle stream, and on a stream with two empty reads before the
    data. *)
Lemma recvPeek_no_progress_bound_witness :
  (exists buf1 evs w1,
     run idle_Read accept_Write (recvPeek 100 (repeat x00 8)) (mkWorld false tt [])
       = (Returned (buf1, Some ErrNoProgress), w1) /\
     trace w1 = [] ++ evs /\ length evs = 100%nat /\ Forall empty_read evs) /\
  (exists buf1 evs,
     run script_Read script_Write (recvPeek 100 (repeat x00 8))
         (mkWorld false
            ([mkRead 0 [] None; mkRead 0 [] None; reads example_header], []) [])
       = (Returned (buf1, None), mkWorld false ([], []) ([] ++ evs)) /\
     length evs = 3%nat).
Proof.
  split.
  - apply (@recvPeek_no_progress_bound 100 unit idle_Read accept_Write
             (repeat x00 8) (mkWorld false tt []) 0%nat tt tt (mkRead 0 [] None)).
    + discriminate.
    + exact idle_always_empty.
  - apply (@recvPeek_no_progress_bound 100 script script_Read script_Write
             (repeat x00 8)
             (mkWorld false
                ([mkRead 0 [] None; mkRead 0 [] None; reads example_header], []) [])
             2%nat ([reads example_header], []) ([], []) (reads example_header)).
    + discriminate.
    + lia.
    + simpl. auto.
    + reflexivity.
    + reflexivity.
    + simpl. lia.
    + unfold int_len. simpl. lia.
    + reflexivity.
Defined.




(** C7 at a call answered by a header and sixteen bytes of body. *)
Lemma Call_phases_witness :
  exists o w1 ws rs,
    run (chunk_Read 4) accept_Write
        (Call 100 (mkContext None false) (Init 16) (Init 512))
        (mkWorld false (example_header ++ example_body) [])
      = (o, w1) /\
    mu w1 = false /\ o <> Blocked /\ o <> Diverged /\
    trace w1 = [] ++ ws ++ rs /\ Forall is_write ws /\ Forall is_read rs.
Proof.
  destruct (@Call_phases 100 (list byte) (chunk_Read 4) accept_Write
              (mkContext None false) (Init 16) (Init 512)
              (mkWorld false (example_header ++ example_body) [])
              chunk_typed)
    as (o & w1 & ws & rs & Hrun & Hmu & Hb & Hd & Htr & Hws & Hrs & _).
  - unfold int_len. simpl. lia.
  - reflexivity.
  - exists o, w1, ws, rs. repeat (split; [assumption | ]). assumption.
Defined.

(** C8 at the first pass of a heartbeat whose response decodes to two
    servers: one [Set] with that list, and the loop goes on. *)
Lemma heartbeat_stops_on_failure_witness :
  exists s1,
    heartbeat_iter 100 (chunk_Read 4) accept_Write example_Encode example_Decode
      example_Set (fun _ => false) (fun _ => 0) 0
      (mkHb (Init 16) (Init 512)
            (mkWorld false (example_header ++ example_body) []) [] [])
      = Continue s1 /\
    hb_log s1 = [] ++ [HbCall; HbDecode; HbSet example_servers] /\
    hb_store s1 = [example_servers].
Proof.
  destruct (run (chunk_Read 4) accept_Write
              (Call 100 (mkContext None false)
                 (example_Encode (Init 16) (wrap_uint64 0)) (Init 512))
              (mkWorld false (example_header ++ example_body) []))
    as [o w] eqn:Hrun.
  assert (Ho : exists response, o = Returned (response, None)).
  { vm_compute in Hrun. injection Hrun as <- _. eexists. reflexivity. }
  destruct Ho as [response ->].
  destruct (@heartbeat_stops_on_failure 100 (list byte) (chunk_Read 4)
              accept_Write example_Encode example_Decode (list (list string))
              example_Set (fun _ => false) (fun _ => 0) 0%nat
              (mkHb (Init 16) (Init 512)
                    (mkWorld false (example_header ++ example_body) []) [] [])
              (mkContext None false) response None w eq_refl Hrun)
    as (_ & _ & _ & Hgo).
  destruct (Hgo response example_servers [example_servers] eq_refl eq_refl eq_refl)
    as (s1 & Hiter & Hlog & Hstore & _).
  exists s1. split; [exact Hiter | ]. split; [exact Hlog | exact Hstore].
Defined.

(** C10 at a header announcing 65 words (520 bytes) for a response buffer
    of 512 bytes. *)
Lemma recvBody_oversized_panics_witness :
  recvBody 100 (set_fields (Init 512) 65 x05 x00 0) = Panic SliceBoundsOutOfRange /\
  run script_Read script_Write (recv 100 (Init 512))
      (mkWorld false ([reads [x41; x00; x00; x00; x05; x00; x00; x00]], []) [])
    = (Panicked SliceBoundsOutOfRange,
       mkWorld false ([], [])
         [EvRead 8 (reads [x41; x00; x00; x00; x05; x00; x00; x00])]).
Proof.
  split.
  - apply (@recvBody_oversized_panics 100 script script_Read script_Write
             (set_fields (Init 512) 65 x05 x00 0)
             x00 x00 x00 x00 x00 x00 x00 x00
             (mkWorld false ([], []) []) (mkWorld false ([], []) [])).
    + simpl. lia.
    + simpl. lia.
  - apply (@recvBody_oversized_panics 100 script script_Read script_Write
             (Init 512) x41 x00 x00 x00 x05 x00 x00 x00
             (mkWorld false ([reads [x41; x00; x00; x00; x05; x00; x00; x00]], []) [])).
    + vm_compute. reflexivity.
    + vm_compute. reflexivity.
Defined.

(** * Further properties of the client *)

(** ** Receiving from a byte stream *)

Lemma firstn_add {A : Type} (a b : nat) (l : list A) :
  firstn (a + b) l = firstn a l ++ firstn b (skipn a l).
Proof.
  revert l. induction a as [ | a IH]; intros l; simpl; [reflexivity | ].
  destruct l as [ | x l]; simpl.
  - rewrite firstn_nil. reflexivity.
  - rewrite IH. reflexivity.
Qed.

Lemma firstn_length_firstn {A : Type} (m : nat) (l : list A) :
  firstn (length (firstn m l)) l = firstn m l.
Proof.
  rewrite length_firstn.
  destruct (Nat.le_ge_cases m (length l)) as [H | H].
  - rewrite Nat.min_l by exact H. reflexivity.
  - rewrite Nat.min_r by exact H.
    rewrite firstn_all, firstn_all2 by exact H. reflexivity.
Qed.

Section StreamFacts.

Variable messageMaxConsecutiveEmptyReads : nat.
Variable k : nat.
Variable conn_Write : list byte -> list byte -> write_result * list byte.

Local Abbreviation exec := (run (chunk_Read k) conn_Write).
Local Abbreviation bound := messageMaxConsecutiveEmptyReads.

(** One [recvFill] on a stream that still has bytes: a single read, which
    takes the next bytes of the stream. *)
Lemma chunk_recvFill (i : nat) (buf : list byte) (w : World (list byte)) :
  (0 < k)%nat -> buf <> [] -> conn w <> [] ->
  let data := firstn (Nat.min k (length buf)) (conn w) in
  exec (recvFill_loop (S i) buf) w
    = (Returned (data ++ skipn (length data) buf,
                 (Z.of_nat (length data), None)),
       mkWorld (mu w) (skipn (length data) (conn w))
         (trace w ++ [EvRead (length buf)
                        (mkRead (Z.of_nat (length data)) data None)])) /\
  (0 < length data)%nat /\ (length data <= length buf)%nat.
Proof.
  intros Hk Hbuf Hst data.
  assert (Hlen : (0 < length data)%nat /\ (length data <= length buf)%nat).
  { unfold data. rewrite length_firstn.
    destruct buf; [congruence | ]. destruct (conn w); [congruence | ].
    simpl length. lia. }
  split; [ | exact Hlen]. destruct Hlen as [Hpos Hle].
  cbn [recvFill_loop run]. unfold chunk_Read. fold data.
  destruct (conn w) as [ | b st] eqn:Hc; [congruence | ].
  cbn [rd_n rd_data rd_err].
  destruct (Z.ltb_spec (Z.of_nat (length data)) 0) as [Hneg | _]; [lia | ].
  destruct (Z.ltb_spec 0 (Z.of_nat (length data))) as [_ | Hz]; [ | lia].
  cbn [run mu conn trace]. rewrite overwrite_short by exact Hle.
  reflexivity.
Qed.

Lemma chunk_recvPeek_loop (fuel : nat) (buf : list byte) (offset : Z)
    (w : World (list byte)) :
  (0 < k)%nat -> (0 < bound)%nat -> int_len buf ->
  0 <= offset <= Z.of_nat (length buf) ->
  Z.of_nat (length buf) - offset <= Z.of_nat fuel ->
  Z.of_nat (length buf) - offset <= Z.of_nat (length (conn w)) ->
  exists evs,
    exec (recvPeek_loop bound fuel buf offset) w
      = (Returned (firstn (Z.to_nat offset) buf
                     ++ firstn (length buf - Z.to_nat offset) (conn w), None),
         mkWorld (mu w) (skipn (length buf - Z.to_nat offset) (conn w))
                 (trace w ++ evs)) /\
    Forall is_read evs /\
    Z.of_nat (length evs) <= Z.of_nat (length buf) - offset.
Proof.
  intros Hk Hb. revert buf offset w.
  induction fuel as [ | fuel IH]; intros buf offset w Hint Hoff Hfuel Hst.
  - assert (Heq : offset = Z.of_nat (length buf)) by lia.
    rewrite recvPeek_loop_done by lia.
    exists []. cbn [run]. subst offset. rewrite Nat2Z.id, Nat.sub_diag.
    rewrite firstn_all, !app_nil_r. simpl. destruct w; simpl.
    split; [reflexivity | ]. split; [constructor | lia].
  - destruct (Z.eq_dec offset (Z.of_nat (length buf))) as [Heq | Hne].
    + rewrite recvPeek_loop_done by lia.
      exists []. cbn [run]. subst offset. rewrite Nat2Z.id, Nat.sub_diag.
      rewrite firstn_all, !app_nil_r. simpl. destruct w; simpl.
      split; [reflexivity | ]. split; [constructor | lia].
    + cbn [recvPeek_loop].
      destruct (Z.ltb_spec offset (Z.of_nat (length buf))) as [Hlt | Hge]; [ | lia].
      destruct (slice_from buf offset) as [sub | ] eqn:Hsub.
      2:{ exfalso. unfold slice_from in Hsub.
          destruct (Z.leb_spec 0 offset); [ | lia].
          destruct (Z.leb_spec offset (Z.of_nat (length buf))); [ | lia].
          discriminate Hsub. }
      apply slice_from_Some in Hsub. destruct Hsub as (_ & Hsub & Hsublen).
      rewrite run_bind. unfold recvFill.
      destruct bound as [ | i] eqn:Hbound; [lia | ].
      assert (Hsubne : sub <> []).
      { intros Hnil. rewrite Hnil in Hsublen. simpl in Hsublen. lia. }
      assert (Hstne : conn w <> []).
      { intros Hnil. rewrite Hnil in Hst. simpl in Hst. lia. }
      destruct (chunk_recvFill i w Hk Hsubne Hstne) as (Hfill & Hpos & Hle).
      set (data := firstn (Nat.min k (length sub)) (conn w)) in *.
      rewrite Hfill. cbv beta iota.
      assert (Hsub1 : length (data ++ skipn (length data) sub) = length sub).
      { rewrite length_app, length_skipn. lia. }
      rewrite write_back_tail by lia.
      rewrite wrap_int_small by (unfold int_range, int_len in *; lia).
      set (buf1 := firstn (Z.to_nat offset) buf ++ data ++ skipn (length data) sub).
      assert (Hbuf1 : length buf1 = length buf).
      { unfold buf1. rewrite length_app, length_firstn, Hsub1. lia. }
      destruct (IH buf1 (offset + Z.of_nat (length data))
                   (mkWorld (mu w) (skipn (length data) (conn w))
                      (trace w ++ [EvRead (length sub)
                         (mkRead (Z.of_nat (length data)) data None)])))
        as (evs & Hrun & Hrd & Hcnt).
      * unfold int_len in *. rewrite Hbuf1. exact Hint.
      * rewrite Hbuf1. lia.
      * rewrite Hbuf1. lia.
      * cbn [conn]. rewrite Hbuf1, length_skipn. lia.
      * rewrite Hrun. cbn [mu conn trace]. rewrite Hbuf1.
        exists (EvRead (length sub) (mkRead (Z.of_nat (length data)) data None)
                  :: evs).
        rewrite <- app_assoc. cbn [app].
        split; [ | split; [constructor; [exact I | exact Hrd]
                          | rewrite Hbuf1 in Hcnt; simpl length; lia]].
        f_equal; [ | f_equal].
        -- f_equal. f_equal.
           replace (Z.to_nat (offset + Z.of_nat (length data)))
             with (length (firstn (Z.to_nat offset) buf) + length data)%nat
             by (rewrite length_firstn; lia).
           unfold buf1. rewrite firstn_two_parts, <- app_assoc. f_equal.
           replace (length buf - Z.to_nat offset)%nat
             with (length data
                   + (length buf - (length (firstn (Z.to_nat offset) buf)
                                    + length data)))%nat
             by (rewrite length_firstn; lia).
           rewrite firstn_add. f_equal.
           unfold data. symmetry. apply firstn_length_firstn.
        -- rewrite skipn_skipn. f_equal. lia.
Qed.

Lemma chunk_recvPeek (buf : list byte) (w : World (list byte)) :
  (0 < k)%nat -> (0 < bound)%nat -> int_len buf ->
  (length buf <= length (conn w))%nat ->
  exists evs,
    exec (recvPeek bound buf) w
      = (Returned (firstn (length buf) (conn w), None),
         mkWorld (mu w) (skipn (length buf) (conn w)) (trace w ++ evs)) /\
    Forall is_read evs /\ (length evs <= length buf)%nat.
Proof.
  intros Hk Hb Hint Hst. unfold recvPeek.
  destruct (@chunk_recvPeek_loop (S (length buf)) buf 0 w Hk Hb Hint)
    as (evs & Hrun & Hrd & Hcnt); try lia.
  exists evs. rewrite Hrun. cbn [Z.to_nat firstn app]. rewrite Nat.sub_0_r.
  split; [reflexivity | ]. split; [exact Hrd | lia].
Qed.

(** X1. Over a stream that hands out at most [k >= 1] bytes per read and
    still holds at least [len(buf)] bytes, [recvPeek] returns success with
    the buffer filled by exactly the next [len(buf)] bytes of the stream, in
    order, and leaves every later byte in the stream; it uses at most
    [len(buf)] reads and nothing else. *)
Theorem recvPeek_takes_stream_prefix (buf : list byte) (w : World (list byte)) :
  (0 < k)%nat -> (0 < bound)%nat -> int_len buf ->
  (length buf <= length (conn w))%nat ->
  exists evs,
    exec (recvPeek bound buf) w
      = (Returned (firstn (length buf) (conn w), None),
         mkWorld (mu w) (skipn (length buf) (conn w)) (trace w ++ evs)) /\
    Forall is_read evs /\ (length evs <= length buf)%nat.
Proof.
  apply chunk_recvPeek.
Qed.

(** What [recv] leaves in the response when a whole frame is in the
    stream. *)
Lemma chunk_recv (res : Message) (b0 b1 b2 b3 b4 b5 b6 b7 : byte)
    (body rest bs : list byte) (w : World (list byte)) :
  (0 < k)%nat -> (0 < bound)%nat ->
  length (header res) = 8%nat ->
  Bytes (body1 res) = Some bs ->
  Z.of_nat (length body) = le_uint [b0; b1; b2; b3] * 8 ->
  (length body <= length bs)%nat ->
  conn w = [b0; b1; b2; b3; b4; b5; b6; b7] ++ body ++ rest ->
  exists evs,
    exec (recv bound res) w
      = (Returned
           (mkMessage (le_uint [b0; b1; b2; b3]) b4 b5 (le_uint [b6; b7])
              [b0; b1; b2; b3; b4; b5; b6; b7]
              (mkBuffer (Some (body ++ skipn (length body) bs))
                        (Offset (body1 res)))
              (body2 res),
            None),
         mkWorld (mu w) rest (trace w ++ evs)) /\
    Forall is_read evs.
Proof.
  intros Hk Hb Hhdr Hbs Hbody Hfit Hst.
  pose proof (le_uint_range [b0; b1; b2; b3]) as Hw. simpl length in Hw.
  change (256 ^ Z.of_nat 4) with (2 ^ 32) in Hw.
  (* the header *)
  destruct (@chunk_recvPeek (header res) w Hk Hb) as (evs1 & Hpeek & Hrd1 & _).
  { unfold int_len. rewrite Hhdr. simpl. lia. }
  { rewrite Hhdr, Hst. simpl. lia. }
  rewrite Hhdr, Hst in Hpeek.
  change (firstn 8 ([b0; b1; b2; b3; b4; b5; b6; b7] ++ body ++ rest))
    with [b0; b1; b2; b3; b4; b5; b6; b7] in Hpeek.
  change (skipn 8 ([b0; b1; b2; b3; b4; b5; b6; b7] ++ body ++ rest))
    with (body ++ rest) in Hpeek.
  rewrite recv_run. unfold recvHeader. rewrite run_bind, Hpeek.
  cbv beta iota. rewrite Uint32_le_uint.
  cbn [nth_error].
  change (slice_from [b0; b1; b2; b3; b4; b5; b6; b7] 6) with (Some [b6; b7]).
  cbv beta iota. rewrite Uint16_le_uint. cbn [run].
  (* the body *)
  unfold recvBody. cbn [words body1 set_fields set_header].
  rewrite (wrap_int_small (z := le_uint [b0; b1; b2; b3]))
    by (unfold int_range; lia).
  unfold messageWordSize.
  rewrite wrap_int_small by (unfold int_range; lia).
  rewrite Hbs. cbn [elems].
  destruct (slice_to bs (le_uint [b0; b1; b2; b3] * 8)) as [buf | ] eqn:Hs.
  2:{ apply slice_to_None in Hs. lia. }
  apply slice_to_Some in Hs. destruct Hs as (_ & Hbuf & Hbl).
  rewrite run_bind.
  destruct (@chunk_recvPeek buf
              (mkWorld (mu w) (body ++ rest) (trace w ++ evs1)) Hk Hb)
    as (evs2 & Hpeek2 & Hrd2 & _).
  { unfold int_len. lia. }
  { cbn [conn]. rewrite length_app. lia. }
  cbn [mu conn trace] in Hpeek2.
  assert (Hlen : length buf = length body) by lia.
  rewrite Hlen in Hpeek2.
  rewrite firstn_app, Nat.sub_diag, firstn_all, firstn_O, app_nil_r in Hpeek2.
  rewrite skipn_app, Nat.sub_diag, skipn_all, skipn_O in Hpeek2.
  cbn [app] in Hpeek2.
  rewrite Hpeek2. cbv beta iota. cbn [run].
  exists (evs1 ++ evs2). rewrite <- app_assoc.
  split; [ | apply Forall_app; split; assumption].
  unfold set_body1_bytes, set_fields, set_header, write_back.
  cbn [words mtype flags extra header body1 body2 Bytes Offset firstn app].
  rewrite Hbs. cbn [Nat.add]. reflexivity.
Qed.

(** X2. When the stream holds a header announcing [n] words, then [8 * n]
    bytes of body, then anything else, and the response buffer has room for
    the body, [recv] succeeds: the response carries the decoded fields, the
    header bytes and the body bytes at the start of its primary buffer (its
    offset, the rest of the buffer and the overflow buffer are as before),
    and exactly the bytes after the frame are left in the stream. *)
Theorem recv_takes_one_frame (res : Message) (b0 b1 b2 b3 b4 b5 b6 b7 : byte)
    (body rest bs : list byte) (w : World (list byte)) :
  (0 < k)%nat -> (0 < bound)%nat ->
  length (header res) = 8%nat ->
  Bytes (body1 res) = Some bs ->
  Z.of_nat (length body) = le_uint [b0; b1; b2; b3] * 8 ->
  (length body <= length bs)%nat ->
  conn w = [b0; b1; b2; b3; b4; b5; b6; b7] ++ body ++ rest ->
  exists evs,
    exec (recv bound res) w
      = (Returned
           (mkMessage (le_uint [b0; b1; b2; b3]) b4 b5 (le_uint [b6; b7])
              [b0; b1; b2; b3; b4; b5; b6; b7]
              (mkBuffer (Some (body ++ skipn (length body) bs))
                        (Offset (body1 res)))
              (body2 res),
            None),
         mkWorld (mu w) rest (trace w ++ evs)) /\
    Forall is_read evs.
Proof.
  apply chunk_recv.
Qed.

End StreamFacts.

(** ** A call over an in-memory pipe *)

Section PipeFacts.

Variable messageMaxConsecutiveEmptyReads : nat.
Variable k : nat.

Local Abbreviation exec := (run (chunk_Read k) pipe_Write).
Local Abbreviation bound := messageMaxConsecutiveEmptyReads.

(** On a pipe every write is accepted in full, so [send] succeeds and the
    queue grows by the segments of the request, in order. *)
Lemma pipe_send (req : Message) (s1 : list byte) (w : World (list byte)) :
  length (header req) = 8%nat ->
  slice_to (elems (Bytes (body1 req))) (Offset (body1 req)) = Some s1 ->
  match Bytes (body2 req) with
  | None => True
  | Some b2 => slice_to b2 (Offset (body2 req)) <> None
  end ->
  exists evs,
    exec (send req) w
      = (Returned None,
         mkWorld (mu w) (conn w ++ concat (segments req)) (trace w ++ evs)) /\
    Forall is_write evs /\ written evs = segments req.
Proof.
  intros Hhdr Hs1 Hs2.
  assert (Hcheck : negb (Z.of_nat (length (header req)) =? messageHeaderSize)
                   = false) by (rewrite Hhdr; reflexivity).
  unfold send, sendHeader, sendBody, segments, seg. rewrite Hs1.
  cbn [bind run pipe_Write wr_err wr_n mu conn trace].
  rewrite Hcheck. cbn [bind run pipe_Write wr_err wr_n mu conn trace].
  rewrite Z.eqb_refl. cbn [negb].
  destruct (Bytes (body2 req)) as [b2 | ].
  - destruct (slice_to b2 (Offset (body2 req))) as [s2 | ]; [ | congruence].
    cbn [bind run pipe_Write wr_err wr_n mu conn trace].
    rewrite Z.eqb_refl. cbn [negb bind run concat].
    exists [EvWrite (header req) (mkWrite (Z.of_nat (length (header req))) None);
            EvWrite s1 (mkWrite (Z.of_nat (length s1)) None);
            EvWrite s2 (mkWrite (Z.of_nat (length s2)) None)].
    rewrite <- !app_assoc, app_nil_r. cbn [app written].
    split; [reflexivity | ]. split; [repeat constructor | reflexivity].
  - cbn [bind run concat].
    exists [EvWrite (header req) (mkWrite (Z.of_nat (length (header req))) None);
            EvWrite s1 (mkWrite (Z.of_nat (length s1)) None)].
    rewrite <- !app_assoc, app_nil_r. cbn [app written].
    split; [reflexivity | ]. split; [repeat constructor | reflexivity].
Qed.

Lemma concat_segments (req : Message) :
  concat (segments req) = header req ++ sent_body req.
Proof. reflexivity. Qed.

(** X3. Round trip through a pipe. A request whose 8-byte header announces
    as many words as its body segments hold is sent by [Call] into an empty
    pipe and read back into the response: the call succeeds, the response
    carries the fields decoded from the request's header, the request's
    header bytes and, at the start of its primary buffer, the request's body
    bytes (primary segment then overflow segment); the pipe is empty again
    and the gate is free. *)
Theorem Call_round_trip (ctx : Context) (request response : Message)
    (b0 b1 b2 b3 b4 b5 b6 b7 : byte) (s1 rs : list byte)
    (w : World (list byte)) :
  (0 < k)%nat -> (0 < bound)%nat ->
  mu w = false -> conn w = [] ->
  header request = [b0; b1; b2; b3; b4; b5; b6; b7] ->
  slice_to (elems (Bytes (body1 request))) (Offset (body1 request)) = Some s1 ->
  match Bytes (body2 request) with
  | None => True
  | Some bytes2 => slice_to bytes2 (Offset (body2 request)) <> None
  end ->
  Z.of_nat (length (sent_body request))
    = le_uint [b0; b1; b2; b3] * 8 ->
  length (header response) = 8%nat ->
  Bytes (body1 response) = Some rs ->
  (length (sent_body request) <= length rs)%nat ->
  exists evs,
    exec (Call bound ctx request response) w
      = (Returned
           (mkMessage (le_uint [b0; b1; b2; b3]) b4 b5 (le_uint [b6; b7])
              (header request)
              (mkBuffer
                 (Some (sent_body request
                          ++ skipn (length (sent_body request)) rs))
                 (Offset (body1 response)))
              (body2 response),
            None),
         mkWorld false [] (trace w ++ evs)).
Proof.
  intros Hk Hb Hmu Hq Hh Hs1 Hs2 Hwords Hrh Hrs Hfit.
  rewrite Call_run by exact Hmu. rewrite Call_body_run.
  destruct (@pipe_send request s1 (locked w)) as (evs1 & Hsend & _ & _);
    [rewrite Hh; reflexivity | exact Hs1 | exact Hs2 | ].
  rewrite Hsend. cbv beta iota.
  cbn [locked mu conn trace]. rewrite Hq. cbn [app].
  rewrite concat_segments, Hh.
  destruct (@chunk_recv bound k pipe_Write response b0 b1 b2 b3 b4 b5 b6 b7
              (sent_body request) [] rs
              (mkWorld true
                 ([b0; b1; b2; b3; b4; b5; b6; b7]
                    ++ sent_body request)
                 (trace w ++ evs1))
              Hk Hb Hrh Hrs Hwords Hfit)
    as (evs2 & Hrecv & _).
  { cbn [conn]. rewrite app_nil_r. reflexivity. }
  rewrite Hrecv. cbv beta iota. cbn [unlocked mu conn trace].
  exists (evs1 ++ evs2). rewrite <- app_assoc. reflexivity.
Qed.

End PipeFacts.

(** ** More on sequential runs *)

Section MoreRunFacts.

Variable messageMaxConsecutiveEmptyReads : nat.
Variable Conn : Type.
Variable conn_Read : Conn -> nat -> read_result * Conn.
Variable conn_Write : Conn -> list byte -> write_result * Conn.

Local Abbreviation exec := (run conn_Read conn_Write).
Local Abbreviation bound := messageMaxConsecutiveEmptyReads.

(** *** A negative count *)

Lemma recvFill_loop_negative (k i : nat) (buf : list byte) (w : World Conn)
    (c1 c2 : Conn) (r : read_result) :
  (k < i)%nat ->
  empty_reads conn_Read k (conn w) (length buf) c1 ->
  conn_Read c1 (length buf) = (r, c2) ->
  rd_n r < 0 ->
  exists evs,
    exec (recvFill_loop i buf) w
      = (Panicked errNegativeRead, mkWorld (mu w) c2 (trace w ++ evs)) /\
    length evs = S k /\ Forall is_read evs.
Proof.
  revert i buf w. induction k as [ | k IH]; intros i buf w Hk Hempty Hrd Hn;
    (destruct i as [ | i]; [lia | ]); simpl in Hempty; cbn [recvFill_loop run].
  - subst c1. rewrite Hrd.
    destruct (Z.ltb_spec (rd_n r) 0); [ | lia].
    cbn [run mu conn trace]. exists [EvRead (length buf) r].
    split; [reflexivity | ]. split; [reflexivity | repeat constructor].
  - destruct (conn_Read (conn w) (length buf)) as [r0 c0] eqn:Hrd0.
    destruct Hempty as (Hn0 & He0 & Hrest).
    rewrite Hn0, He0. cbn [Z.ltb Z.compare mu conn trace].
    destruct (IH i (overwrite buf (rd_data r0))
                 (mkWorld (mu w) c0 (trace w ++ [EvRead (length buf) r0])))
      as (evs & Hrun & Hlen & Hall);
      try (rewrite ?overwrite_length; cbn [conn]; assumption); [lia | ].
    cbn [mu conn trace] in Hrun.
    exists (EvRead (length buf) r0 :: evs).
    rewrite Hrun, <- app_assoc. cbn [app length].
    split; [reflexivity | ]. split; [lia | constructor; [exact I | exact Hall]].
Qed.

(** X4. A read that reports a negative count is not an error return but a
    panic, also when the same read reports an error: once the request has
    been sent, fewer empty reads than the bound followed by such a read of
    the response header make [Call] panic with [errNegativeRead], after
    exactly those reads, and the deferred unlock has released the gate. *)
Theorem Call_negative_read_panics (ctx : Context) (request response : Message)
    (w wa : World Conn) (k : nat) (c1 c2 : Conn) (r : read_result) :
  mu w = false ->
  exec (send request) (locked w) = (Returned None, wa) ->
  header response <> [] ->
  (k < bound)%nat ->
  empty_reads conn_Read k (conn wa) (length (header response)) c1 ->
  conn_Read c1 (length (header response)) = (r, c2) ->
  rd_n r < 0 ->
  exists evs,
    exec (Call bound ctx request response) w
      = (Panicked errNegativeRead, mkWorld false c2 (trace wa ++ evs)) /\
    length evs = S k /\ Forall is_read evs.
Proof.
  intros Hmu Hsend Hne Hk Hempty Hrd Hn.
  destruct (recvFill_loop_negative (header response) wa Hk Hempty Hrd Hn)
    as (evs & Hfill & Hlen & Hall).
  exists evs. split; [ | split; assumption].
  rewrite Call_run by exact Hmu. rewrite Call_body_run, Hsend. cbv beta iota.
  rewrite recv_run. unfold recvHeader, recvPeek. rewrite run_bind.
  cbn [recvPeek_loop].
  assert (Hpos : 0 < Z.of_nat (length (header response))).
  { destruct (header response); [congruence | simpl length; lia]. }
  destruct (Z.ltb_spec 0 (Z.of_nat (length (header response)))); [ | lia].
  rewrite slice_from_0, run_bind. unfold recvFill. rewrite Hfill.
  reflexivity.
Qed.

(** *** The root cause of a failed call *)

Lemma run_extends {A : Type} (p : prog A) (w w1 : World Conn) (o : outcome A) :
  exec p w = (o, w1) -> exists evs, trace w1 = trace w ++ evs.
Proof.
  revert w. induction p as [a|x| |p IH|p IH|d p IH|n p IH]; intros w Hrun;
    cbn [run] in Hrun.
  1-3: injection Hrun as _ <-; exists []; rewrite app_nil_r; reflexivity.
  - destruct (mu w); [injection Hrun as _ <-; exists []; rewrite app_nil_r; reflexivity | ].
    apply IH in Hrun. exact Hrun.
  - destruct (mu w); [ | injection Hrun as _ <-; exists []; rewrite app_nil_r; reflexivity].
    apply IH in Hrun. exact Hrun.
  - destruct (conn_Write (conn w) d) as [r c]. apply IH in Hrun.
    destruct Hrun as [evs Htr]. cbn [trace] in Htr.
    exists (EvWrite d r :: evs). rewrite Htr, <- app_assoc. reflexivity.
  - destruct (conn_Read (conn w) n) as [r c]. apply IH in Hrun.
    destruct Hrun as [evs Htr]. cbn [trace] in Htr.
    exists (EvRead n r :: evs). rewrite Htr, <- app_assoc. reflexivity.
Qed.

Lemma blames_prefix (pre evs : list event) (e : error) :
  blames bound evs e -> blames bound (pre ++ evs) e.
Proof.
  intros [[Hc (ev & Hin & Hs)] | [[Hc (p & tl & -> & Hl & Hall)] | (ev & e0 & Hin & Hr & Hc)]].
  - left. split; [exact Hc | ]. exists ev. split; [ | exact Hs].
    apply in_or_app. right. exact Hin.
  - right. left. split; [exact Hc | ]. exists (pre ++ p), tl.
    rewrite app_assoc. auto.
  - right. right. exists ev, e0. split; [ | auto].
    apply in_or_app. right. exact Hin.
Qed.

Lemma blames_after (w wa w1 : World Conn) (evs1 : list event) (e : error) :
  trace wa = trace w ++ evs1 ->
  (exists evs, trace w1 = trace wa ++ evs /\ blames bound evs e) ->
  exists evs, trace w1 = trace w ++ evs /\ blames bound evs e.
Proof.
  intros Htr (evs & Htr1 & Hb). exists (evs1 ++ evs).
  rewrite Htr1, Htr, <- app_assoc. split; [reflexivity | ].
  apply blames_prefix. exact Hb.
Qed.

Lemma recvFill_loop_blame (i : nat) (buf b : list byte) (n : Z) (e : error)
    (w w1 : World Conn) :
  exec (recvFill_loop i buf) w = (Returned (b, (n, Some e)), w1) ->
  exists evs,
    trace w1 = trace w ++ evs /\
    ((e = ErrNoProgress /\ length evs = i /\ Forall empty_read evs) \/
     exists ev, In ev evs /\ reports ev e).
Proof.
  revert buf w. induction i as [ | i IH]; intros buf w Hrun;
    cbn [recvFill_loop run] in Hrun.
  - injection Hrun as _ _ <- <-. exists []. rewrite app_nil_r.
    split; [reflexivity | ]. left. auto.
  - destruct (conn_Read (conn w) (length buf)) as [r c] eqn:Hrd.
    destruct (Z.ltb_spec (rd_n r) 0) as [Hneg | Hnn]; [discriminate Hrun | ].
    destruct (rd_err r) as [e0 | ] eqn:He.
    + injection Hrun as _ _ <- <-. exists [EvRead (length buf) r].
      split; [reflexivity | ]. right. exists (EvRead (length buf) r).
      split; [left; reflexivity | exact He].
    + destruct (Z.ltb_spec 0 (rd_n r)) as [Hpos | Hz]; [discriminate Hrun | ].
      apply IH in Hrun. destruct Hrun as (evs & Htr & Hc). cbn [trace] in Htr.
      exists (EvRead (length buf) r :: evs). rewrite Htr, <- app_assoc.
      split; [reflexivity | ].
      destruct Hc as [(-> & Hl & Hall) | (ev & Hin & Hr)].
      * left. split; [reflexivity | ]. split; [simpl; lia | ].
        constructor; [ | exact Hall]. simpl. split; [lia | exact He].
      * right. exists ev. split; [right; exact Hin | exact Hr].
Qed.

Lemma recvPeek_loop_blame (fuel : nat) (buf b : list byte) (offset : Z)
    (e : error) (w w1 : World Conn) :
  exec (recvPeek_loop bound fuel buf offset) w = (Returned (b, Some e), w1) ->
  exists evs, trace w1 = trace w ++ evs /\ blames bound evs e.
Proof.
  revert buf offset w. induction fuel as [ | fuel IH]; intros buf offset w Hrun;
    cbn [recvPeek_loop] in Hrun.
  - destruct (offset <? Z.of_nat (length buf)); discriminate Hrun.
  - destruct (offset <? Z.of_nat (length buf)); [ | discriminate Hrun].
    destruct (slice_from buf offset) as [sub | ]; [ | discriminate Hrun].
    rewrite run_bind in Hrun.
    destruct (exec (recvFill bound sub) w) as [o wa] eqn:Hfill.
    destruct o as [[sub1 [n [e1 | ]]] | x | | ]; try discriminate Hrun.
    + injection Hrun as _ <- <-. unfold recvFill in Hfill.
      apply recvFill_loop_blame in Hfill.
      destruct Hfill as (evs & Htr & [(-> & Hl & Hall) | (ev & Hin & Hr)]);
        exists evs; (split; [exact Htr | ]).
      * right. left. split; [reflexivity | ]. exists [], evs. auto.
      * right. right. exists ev, e1. auto.
    + destruct (run_extends _ _ Hfill) as [evs1 Htr1].
      apply IH in Hrun. eapply blames_after; [exact Htr1 | exact Hrun].
Qed.

Ltac crunch_writes H :=
  repeat (cbn [run bind negb] in H;
          match type of H with
          | context [conn_Write ?c ?d] =>
              destruct (conn_Write c d) as [? ?] eqn:?
          | context [match wr_err ?r with _ => _ end] =>
              destruct (wr_err r) eqn:?
          | context [Z.eqb ?a ?b] => destruct (Z.eqb_spec a b)
          | context [match slice_to ?s ?n with _ => _ end] =>
              destruct (slice_to s n) eqn:?
          | context [match Bytes ?b with _ => _ end] =>
              destruct (Bytes b) eqn:?
          end).

Lemma send_blame (req : Message) (e : error) (w w1 : World Conn) :
  Z.of_nat (length (header req)) = messageHeaderSize ->
  exec (send req) w = (Returned (Some e), w1) ->
  exists evs, trace w1 = trace w ++ evs /\ blames bound evs e.
Proof.
  intros Hhdr Hrun.
  unfold send, sendHeader, sendBody in Hrun. rewrite <- Hhdr in Hrun.
  crunch_writes Hrun; cbn [negb run bind] in Hrun;
    try discriminate Hrun; injection Hrun as <- <-;
    (eexists; split; [cbn [trace]; rewrite <- ?app_assoc; reflexivity | ]);
    cbn [app].
  all: first
    [ (* an error reported by the last write *)
      right; right;
      match goal with
      | H : wr_err ?r = Some ?e0 |- context [EvWrite ?d ?r] =>
          exists (EvWrite d r), e0;
          split; [simpl; tauto | split; [exact H | reflexivity]]
      end
    | (* a short write *)
      left; split; [reflexivity | ];
      match goal with
      | H : wr_n ?r <> _ |- context [EvWrite ?d ?r] =>
          exists (EvWrite d r);
          split; [simpl; tauto | simpl; split; [assumption | exact H]]
      end ].
Qed.

Lemma recv_blame (res res1 : Message) (e : error) (w w1 : World Conn) :
  exec (recv bound res) w = (Returned (res1, Some e), w1) ->
  exists evs, trace w1 = trace w ++ evs /\ blames bound evs e.
Proof.
  intros Hrun. rewrite recv_run in Hrun.
  destruct (exec (recvHeader bound res) w) as [o wa] eqn:Hh.
  destruct o as [[r1 [e1 | ]] | x | | ]; try discriminate Hrun.
  - injection Hrun as _ <- <-.
    unfold recvHeader in Hh. rewrite run_bind in Hh.
    destruct (exec (recvPeek bound (header res)) w) as [o wb] eqn:Hpeek.
    destruct o as [[h [e2 | ]] | x | | ]; try discriminate Hh.
    + injection Hh as _ <- <-. unfold recvPeek in Hpeek.
      apply recvPeek_loop_blame in Hpeek. exact Hpeek.
    + destruct (Uint32 h); [ | discriminate Hh].
      destruct (nth_error h 4); [ | discriminate Hh].
      destruct (nth_error h 5); [ | discriminate Hh].
      destruct (slice_from h 6) as [tl | ]; [ | discriminate Hh].
      destruct (Uint16 tl); discriminate Hh.
  - destruct (run_extends _ _ Hh) as [evs1 Htr1].
    destruct (exec (recvBody bound r1) wa) as [o wb] eqn:Hb.
    destruct o as [[r2 [e2 | ]] | x | | ]; try discriminate Hrun.
    injection Hrun as _ <- <-.
    eapply blames_after; [exact Htr1 | ].
    unfold recvBody in Hb.
    destruct (slice_to _ _) as [buf | ]; [ | discriminate Hb].
    rewrite run_bind in Hb.
    destruct (exec (recvPeek bound buf) wa) as [o wc] eqn:Hpeek.
    destruct o as [[b [e3 | ]] | x | | ]; try discriminate Hb.
    injection Hb as _ <- <-. unfold recvPeek in Hpeek.
    apply recvPeek_loop_blame in Hpeek. exact Hpeek.
Qed.

(** X5. Whenever [Call] returns an error, the root cause under its wraps
    ([errors.Cause]) is accounted for by the operations the call performed
    on the connection: it is [io.ErrShortWrite] and one of the writes was
    short, or it is [io.ErrNoProgress] and the call's last operations were
    [messageMaxConsecutiveEmptyReads] empty reads, or it is the root cause
    of an error that one of the reads or writes reported. *)
Theorem Call_error_cause (ctx : Context) (request response res : Message)
    (e : error) (w w1 : World Conn) :
  mu w = false ->
  Z.of_nat (length (header request)) = messageHeaderSize ->
  exec (Call bound ctx request response) w = (Returned (res, Some e), w1) ->
  exists evs, trace w1 = trace w ++ evs /\ blames bound evs e.
Proof.
  intros Hmu Hhdr Hrun.
  rewrite Call_run in Hrun by exact Hmu. rewrite Call_body_run in Hrun.
  destruct (exec (send request) (locked w)) as [o wa] eqn:Hsend.
  destruct o as [[e1 | ] | x | | ]; try discriminate Hrun.
  - injection Hrun as _ <- <-.
    eapply send_blame in Hsend; [ | exact Hhdr]. exact Hsend.
  - destruct (run_extends _ _ Hsend) as [evs1 Htr1]. cbn [locked trace] in Htr1.
    destruct (exec (recv bound response) wa) as [o wb] eqn:Hrecv.
    destruct o as [[r1 [e1 | ]] | x | | ]; try discriminate Hrun.
    injection Hrun as _ <- <-. cbn [unlocked trace].
    apply recv_blame in Hrecv.
    destruct Hrecv as (evs & Htr & Hb). exists (evs1 ++ evs).
    rewrite Htr, Htr1, <- app_assoc. split; [reflexivity | ].
    apply blames_prefix. exact Hb.
Qed.

(** *** The response buffers are never resized *)

Lemma recvPeek_loop_length (fuel : nat) (buf b : list byte) (offset : Z)
    (err : option error) (w w1 : World Conn) :
  exec (recvPeek_loop bound fuel buf offset) w = (Returned (b, err), w1) ->
  length b = length buf.
Proof.
  revert buf offset w. induction fuel as [ | fuel IH]; intros buf offset w Hrun;
    cbn [recvPeek_loop] in Hrun.
  - destruct (offset <? Z.of_nat (length buf)); [discriminate Hrun | ].
    injection Hrun as <- _ _. reflexivity.
  - destruct (offset <? Z.of_nat (length buf)).
    2:{ injection Hrun as <- _ _. reflexivity. }
    destruct (slice_from buf offset) as [sub | ] eqn:Hsub; [ | discriminate Hrun].
    apply slice_from_Some in Hsub. destruct Hsub as (Hoff & _ & Hsublen).
    rewrite run_bind in Hrun.
    destruct (exec (recvFill bound sub) w) as [o wa] eqn:Hfill.
    unfold recvFill in Hfill. apply recvFill_loop_total in Hfill.
    destruct Hfill as [-> | (sub1 & n & e & -> & Hl & _)]; [discriminate Hrun | ].
    assert (Hwb : length (write_back buf (Z.to_nat offset) sub1) = length buf)
      by (apply write_back_length; lia).
    destruct e as [e | ].
    + injection Hrun as <- _ _. exact Hwb.
    + apply IH in Hrun. rewrite Hrun. exact Hwb.
Qed.

Lemma same_sizes_refl (a : Message) : same_sizes a a.
Proof. unfold same_sizes. tauto. Qed.

Lemma same_sizes_trans (a b c : Message) :
  same_sizes a b -> same_sizes b c -> same_sizes a c.
Proof.
  unfold same_sizes.
  intros (H1 & H2 & H3 & H4 & H5) (K1 & K2 & K3 & K4 & K5).
  repeat split; try congruence; tauto.
Qed.

Lemma recvHeader_sizes (res res1 : Message) (err : option error)
    (w w1 : World Conn) :
  exec (recvHeader bound res) w = (Returned (res1, err), w1) ->
  same_sizes res1 res.
Proof.
  intros Hrun. unfold recvHeader in Hrun. rewrite run_bind in Hrun.
  destruct (exec (recvPeek bound (header res)) w) as [o wa] eqn:Hpeek.
  destruct o as [[h e] | x | | ]; try discriminate Hrun.
  unfold recvPeek in Hpeek. apply recvPeek_loop_length in Hpeek.
  assert (Hgoal : forall m, header m = h -> body1 m = body1 res ->
                            body2 m = body2 res -> same_sizes m res).
  { intros m Hh Hb1 Hb2. unfold same_sizes. rewrite Hh, Hb1, Hb2. tauto. }
  destruct e as [e | ].
  - injection Hrun as <- _ _. apply Hgoal; reflexivity.
  - destruct (Uint32 h); [ | discriminate Hrun].
    destruct (nth_error h 4); [ | discriminate Hrun].
    destruct (nth_error h 5); [ | discriminate Hrun].
    destruct (slice_from h 6) as [tl | ]; [ | discriminate Hrun].
    destruct (Uint16 tl); [ | discriminate Hrun].
    injection Hrun as <- _ _. apply Hgoal; reflexivity.
Qed.

Lemma recvBody_sizes (res res1 : Message) (err : option error)
    (w w1 : World Conn) :
  exec (recvBody bound res) w = (Returned (res1, err), w1) ->
  same_sizes res1 res.
Proof.
  intros Hrun. unfold recvBody in Hrun.
  destruct (slice_to _ _) as [buf | ] eqn:Hs; [ | discriminate Hrun].
  apply slice_to_Some in Hs. destruct Hs as (Hn & _ & Hbl).
  rewrite run_bind in Hrun.
  destruct (exec (recvPeek bound buf) w) as [o wa] eqn:Hpeek.
  destruct o as [[b e] | x | | ]; try discriminate Hrun.
  unfold recvPeek in Hpeek. apply recvPeek_loop_length in Hpeek.
  assert (Hres : res1 = set_body1_bytes res
                   (write_back (elems (Bytes (body1 res))) 0 b)).
  { destruct e; injection Hrun as <- _ _; reflexivity. }
  subst res1. unfold same_sizes, set_body1_bytes.
  cbn [header body1 body2 Bytes Offset].
  destruct (Bytes (body1 res)) as [bytes | ] eqn:HB; cbn [elems] in *.
  - rewrite write_back_length by (simpl; lia).
    repeat split; try reflexivity; intros H; discriminate H.
  - repeat split; reflexivity.
Qed.

(** X6. Whatever the connection does, the response a [Call] returns has
    buffers of the same sizes as the response it was given: the header and
    primary body keep their lengths (nothing is reallocated or grown), the
    primary offset is not advanced, and the overflow buffer is untouched. *)
Theorem Call_keeps_buffer_sizes (ctx : Context) (request response res : Message)
    (err : option error) (w w1 : World Conn) :
  mu w = false ->
  exec (Call bound ctx request response) w = (Returned (res, err), w1) ->
  same_sizes res response.
Proof.
  intros Hmu Hrun.
  rewrite Call_run in Hrun by exact Hmu. rewrite Call_body_run in Hrun.
  destruct (exec (send request) (locked w)) as [o wa].
  destruct o as [[e1 | ] | x | | ]; try discriminate Hrun.
  - injection Hrun as <- _ _. apply same_sizes_refl.
  - rewrite recv_run in Hrun.
    destruct (exec (recvHeader bound response) wa) as [o wb] eqn:Hh.
    destruct o as [[r1 [e1 | ]] | x | | ]; try discriminate Hrun.
    + injection Hrun as <- _ _. eapply recvHeader_sizes. exact Hh.
    + apply recvHeader_sizes in Hh.
      destruct (exec (recvBody bound r1) wb) as [o wc] eqn:Hb.
      destruct o as [[r2 e2] | x | | ]; try discriminate Hrun.
      apply recvBody_sizes in Hb.
      assert (res = r2) by (destruct e2; injection Hrun as <- _ _; reflexivity).
      subst r2. eapply same_sizes_trans; eassumption.
Qed.

(** *** The decoded fields *)

(** X7. Whatever the connection delivers, when [recvHeader] succeeds the
    header buffer holds at least eight bytes, the word count is the
    little-endian value of bytes 0-3 and lies in [0, 2^32), the type and
    flags are bytes 4 and 5, [extra] is the little-endian value of bytes
    6-7 and lies in [0, 2^16), and the body length that [recvBody] computes
    from the word count, [int(words) * 8], does not wrap around. *)
Theorem recvHeader_fields_in_range (res res1 : Message) (w w1 : World Conn) :
  exec (recvHeader bound res) w = (Returned (res1, None), w1) ->
  (8 <= length (header res1))%nat /\
  words res1 = le_uint (firstn 4 (header res1)) /\
  0 <= words res1 < 2 ^ 32 /\
  nth_error (header res1) 4 = Some (mtype res1) /\
  nth_error (header res1) 5 = Some (flags res1) /\
  extra res1 = le_uint (firstn 2 (skipn 6 (header res1))) /\
  0 <= extra res1 < 2 ^ 16 /\
  wrap_int (wrap_int (words res1) * messageWordSize) = words res1 * 8.
Proof.
  intros Hrun. unfold recvHeader in Hrun. rewrite run_bind in Hrun.
  destruct (exec (recvPeek bound (header res)) w) as [o wa].
  destruct o as [[h [e | ]] | x | | ]; try discriminate Hrun.
  destruct h as [ | b0 [ | b1 [ | b2 [ | b3 [ | b4 [ | b5 [ | b6 [ | b7 rest]]]]]]]];
    try discriminate Hrun.
  rewrite Uint32_le_uint in Hrun. cbn [nth_error] in Hrun.
  change (slice_from (b0 :: b1 :: b2 :: b3 :: b4 :: b5 :: b6 :: b7 :: rest) 6)
    with (if 6 <=? Z.of_nat (length (b0 :: b1 :: b2 :: b3 :: b4 :: b5 :: b6 :: b7 :: rest))
          then Some (b6 :: b7 :: rest) else None) in Hrun.
  destruct (Z.leb_spec 6 (Z.of_nat (length (b0 :: b1 :: b2 :: b3 :: b4 :: b5 :: b6 :: b7 :: rest))));
    [ | discriminate Hrun].
  rewrite Uint16_le_uint in Hrun.
  assert (Hres : res1 = set_fields
                   (set_header res
                      (b0 :: b1 :: b2 :: b3 :: b4 :: b5 :: b6 :: b7 :: rest))
                   (le_uint [b0; b1; b2; b3]) b4 b5 (le_uint [b6; b7]))
    by (injection Hrun as <- _; reflexivity).
  subst res1. clear Hrun.
  pose proof (le_uint_range [b0; b1; b2; b3]) as Hw.
  pose proof (le_uint_range [b6; b7]) as Hx.
  simpl length in Hw, Hx.
  change (256 ^ Z.of_nat 4) with (2 ^ 32) in Hw.
  change (256 ^ Z.of_nat 2) with (2 ^ 16) in Hx.
  unfold set_fields, set_header.
  cbn [header words mtype flags extra nth_error].
  change (firstn 4 (b0 :: b1 :: b2 :: b3 :: b4 :: b5 :: b6 :: b7 :: rest))
    with [b0; b1; b2; b3].
  change (firstn 2 (skipn 6 (b0 :: b1 :: b2 :: b3 :: b4 :: b5 :: b6 :: b7 :: rest)))
    with [b6; b7].
  remember (le_uint [b0; b1; b2; b3]) as wv.
  remember (le_uint [b6; b7]) as xv.
  split; [simpl length; lia | ].
  split; [reflexivity | ]. split; [exact Hw | ].
  split; [reflexivity | ]. split; [reflexivity | ].
  split; [reflexivity | ]. split; [exact Hx | ].
  rewrite (wrap_int_small (z := wv)) by (unfold int_range; lia).
  unfold messageWordSize. apply wrap_int_small. unfold int_range. lia.
Qed.

(** *** An empty body *)

(** X8. A response announcing zero words has no body to read: [recvBody]
    returns success at once, performs no operation on the connection and
    leaves the response exactly as it was, also when the primary body
    buffer is nil. *)
Theorem recvBody_zero_words (res : Message) (w : World Conn) :
  words res = 0 ->
  exec (recvBody bound res) w = (Returned (res, None), w).
Proof.
  intros Hw. unfold recvBody. rewrite Hw.
  change (wrap_int (wrap_int 0 * messageWordSize)) with 0.
  unfold slice_to. cbn [Z.leb Z.compare andb].
  destruct (Z.leb_spec 0 (Z.of_nat (length (elems (Bytes (body1 res))))));
    [ | lia].
  cbn [Z.to_nat firstn]. unfold recvPeek. cbn [length recvPeek_loop].
  cbn [Z.of_nat Z.ltb Z.compare bind run].
  unfold set_body1_bytes, write_back. cbn [firstn app Nat.add length skipn].
  destruct res as [wd t f x h [bytes off] b2]. cbn [words mtype flags extra header body1 body2 Bytes Offset elems].
  destruct bytes; reflexivity.
Qed.

(** *** A bound on the reads *)

Lemma recvPeek_loop_reads (Hok : reader_ok conn_Read) (fuel : nat)
    (buf : list byte) (offset : Z) (w w1 : World Conn)
    (o : outcome (list byte * option error)) :
  int_len buf ->
  0 <= offset <= Z.of_nat (length buf) ->
  Z.of_nat (length buf) - offset <= Z.of_nat fuel ->
  exec (recvPeek_loop bound fuel buf offset) w = (o, w1) ->
  exists evs,
    trace w1 = trace w ++ evs /\ Forall is_read evs /\
    Z.of_nat (length evs) <= (Z.of_nat (length buf) - offset) * Z.of_nat bound.
Proof.
  revert buf offset w. induction fuel as [ | fuel IH];
    intros buf offset w Hlen Hoff Hfuel Hrun.
  - rewrite recvPeek_loop_done in Hrun by lia. injection Hrun as _ <-.
    exists []. rewrite app_nil_r. split; [reflexivity | ].
    split; [constructor | simpl; nia].
  - destruct (Z.eq_dec offset (Z.of_nat (length buf))) as [Heq | Hne].
    { rewrite recvPeek_loop_done in Hrun by lia. injection Hrun as _ <-.
      exists []. rewrite app_nil_r. split; [reflexivity | ].
      split; [constructor | simpl; nia]. }
    cbn [recvPeek_loop] in Hrun.
    destruct (Z.ltb_spec offset (Z.of_nat (length buf))) as [Hlt | Hge]; [ | lia].
    destruct (slice_from buf offset) as [sub | ] eqn:Hsub.
    2:{ exfalso. unfold slice_from in Hsub.
        destruct (Z.leb_spec 0 offset); [ | lia].
        destruct (Z.leb_spec offset (Z.of_nat (length buf))); [ | lia].
        discriminate Hsub. }
    apply slice_from_Some in Hsub. destruct Hsub as (_ & Hsub & Hsublen).
    rewrite run_bind in Hrun.
    destruct (exec (recvFill bound sub) w) as [o1 wa] eqn:Hfill.
    unfold recvFill in Hfill. eapply recvFill_loop_ok in Hfill; [ | exact Hok].
    destruct Hfill as (sub1 & n & err & evs1 & -> & Htr1 & Hrd1 & Hl1 & Hcnt1
                       & _ & _ & Hm).
    assert (Hwb : length (write_back buf (Z.to_nat offset) sub1) = length buf)
      by (apply write_back_length; lia).
    destruct err as [e | ].
    + injection Hrun as _ <-. exists evs1.
      split; [exact Htr1 | ]. split; [exact Hrd1 | nia].
    + destruct Hm as (Hn & _).
      rewrite wrap_int_small in Hrun
        by (unfold int_range, int_len in *; lia).
      apply IH in Hrun; [ | unfold int_len in *; rewrite Hwb; exact Hlen
                          | rewrite Hwb; lia | rewrite Hwb; lia].
      destruct Hrun as (evs2 & Htr2 & Hrd2 & Hcnt2). rewrite Hwb in Hcnt2.
      exists (evs1 ++ evs2). rewrite Htr2, Htr1, <- app_assoc.
      split; [reflexivity | ]. split; [apply Forall_app; auto | ].
      rewrite length_app. nia.
Qed.

(** X9. On a connection that keeps the [io.Reader] contract, [recvPeek]
    on a buffer of [N] bytes never performs more than
    [N * messageMaxConsecutiveEmptyReads] reads, whether it succeeds or
    fails, and performs nothing but reads; on an empty buffer it performs
    none. *)
Theorem recvPeek_read_bound (buf : list byte) (w w1 : World Conn)
    (o : outcome (list byte * option error)) :
  reader_ok conn_Read -> int_len buf ->
  exec (recvPeek bound buf) w = (o, w1) ->
  exists evs,
    trace w1 = trace w ++ evs /\ Forall is_read evs /\
    (length evs <= length buf * bound)%nat.
Proof.
  intros Hok Hlen Hrun. unfold recvPeek in Hrun.
  apply (recvPeek_loop_reads Hok) in Hrun; [ | exact Hlen | lia | lia].
  destruct Hrun as (evs & Htr & Hrd & Hcnt).
  exists evs. split; [exact Htr | ]. split; [exact Hrd | nia].
Qed.

End MoreRunFacts.

(** ** Goroutines: the gate is never leaked *)

Section GateFacts.

Variable Conn : Type.
Variable conn_Read : Conn -> nat -> read_result * Conn.
Variable conn_Write : Conn -> list byte -> write_result * Conn.
Variable A : Type.

Local Abbreviation machine_step := (@step Conn conn_Read conn_Write A).
Local Abbreviation machine_steps := (@steps Conn conn_Read conn_Write A).




End GateFacts.


(** ** A call under the scheduler and a call alone *)

Section AtomicFacts.

Variable Conn : Type.
Variable conn_Read : Conn -> nat -> read_result * Conn.
Variable conn_Write : Conn -> list byte -> write_result * Conn.
Variable A : Type.

Local Abbreviation machine_step := (@step Conn conn_Read conn_Write A).
Local Abbreviation machine_steps := (@steps Conn conn_Read conn_Write A).
Local Abbreviation exec := (@run Conn conn_Read conn_Write A).

Lemma steps_cons (m1 m2 m3 : Machine Conn A) :
  machine_step m1 m2 -> machine_steps m2 m3 -> machine_steps m1 m3.
Proof.
  intros Hstep Hsteps. induction Hsteps as [ | m2 m3 m4 _ IH Hlast].
  - eapply steps_snoc; [apply steps_refl | exact Hstep].
  - eapply steps_snoc; [apply IH; exact Hstep | exact Hlast].
Qed.

(** The goroutine inside the critical section can be scheduled until it
    has unlocked, and then it has done what a run of its program does. *)
Lemma critical_run_steps (p : prog A) :
  critical p ->
  forall (m : Machine Conn A) (t : tid) (w w1 : World Conn) (o : outcome A),
    m_pool m t = p -> m_mu m = true -> mu w = true -> conn w = m_conn m ->
    exec p w = (o, w1) -> o <> Diverged ->
    exists m1 evs,
      machine_steps m m1 /\ m_mu m1 = false /\ mu w1 = false /\
      m_conn m1 = conn w1 /\ trace w1 = trace w ++ evs /\
      m_trace m1 = m_trace m ++ map (pair t) evs /\
      settled o (m_pool m1 t) /\
      forall t1, t1 <> t -> m_pool m1 t1 = m_pool m t1.
Proof.
  induction 1 as [ | k Hq | d k Hk IH | n k Hk IH];
    intros m t w w1 o Hp Hheld Hmu Hc Hrun Hnd.
  - simpl in Hrun. injection Hrun as <- _. congruence.
  - simpl in Hrun. rewrite Hmu in Hrun.
    exists (mkMachine false (m_conn m) (m_trace m) (upd (m_pool m) t k)), [].
    assert (Hst : machine_steps m
              (mkMachine false (m_conn m) (m_trace m) (upd (m_pool m) t k))).
    { eapply steps_snoc; [apply steps_refl | ].
      apply step_Unlock; assumption. }
    cbn [m_mu m_conn m_trace m_pool map]. rewrite !app_nil_r, upd_same.
    destruct k as [a|x| |k|k|d k|n k]; simpl in Hq; try contradiction;
      simpl in Hrun; injection Hrun as <- <-; cbn [mu conn trace settled];
      split_all; auto; intros t1 Hne; apply upd_other; exact Hne.
  - simpl in Hrun. rewrite Hc in Hrun.
    destruct (conn_Write (m_conn m) d) as [r c] eqn:Hw.
    pose (m2 := mkMachine (m_mu m) c (m_trace m ++ [(t, EvWrite d r)])
                          (upd (m_pool m) t (k r))).
    assert (Hstep : machine_step m m2) by (eapply step_Write; eassumption).
    destruct (IH r m2 t (mkWorld (mu w) c (trace w ++ [EvWrite d r])) w1 o
               (upd_same _ _ _) Hheld Hmu eq_refl Hrun Hnd)
      as (m1 & evs & Hst & Hfree & Hmu1 & Hc1 & Htr & Hmtr & Hset & Hoth).
    exists m1, (EvWrite d r :: evs). cbn [trace m_trace m2 m_pool] in *.
    split_all; auto.
    + eapply steps_cons; eassumption.
    + rewrite Htr, <- app_assoc. reflexivity.
    + rewrite Hmtr, <- app_assoc. reflexivity.
    + intros t1 Hne. rewrite Hoth by exact Hne. apply upd_other; exact Hne.
  - simpl in Hrun. rewrite Hc in Hrun.
    destruct (conn_Read (m_conn m) n) as [r c] eqn:Hr.
    pose (m2 := mkMachine (m_mu m) c (m_trace m ++ [(t, EvRead n r)])
                          (upd (m_pool m) t (k r))).
    assert (Hstep : machine_step m m2) by (eapply step_Read; eassumption).
    destruct (IH r m2 t (mkWorld (mu w) c (trace w ++ [EvRead n r])) w1 o
               (upd_same _ _ _) Hheld Hmu eq_refl Hrun Hnd)
      as (m1 & evs & Hst & Hfree & Hmu1 & Hc1 & Htr & Hmtr & Hset & Hoth).
    exists m1, (EvRead n r :: evs). cbn [trace m_trace m2 m_pool] in *.
    split_all; auto.
    + eapply steps_cons; eassumption.
    + rewrite Htr, <- app_assoc. reflexivity.
    + rewrite Hmtr, <- app_assoc. reflexivity.
    + intros t1 Hne. rewrite Hoth by exact Hne. apply upd_other; exact Hne.
Qed.

(** The same from the moment the goroutine waits at a free gate. *)
Lemma entering_run_steps (m : Machine Conn A) (t : tid) (w1 : World Conn)
    (o : outcome A) :
  entering (m_pool m t) -> m_mu m = false ->
  exec (m_pool m t) (mkWorld false (m_conn m) []) = (o, w1) ->
  o <> Diverged ->
  exists m1,
    machine_steps m m1 /\ m_mu m1 = false /\ mu w1 = false /\
    m_conn m1 = conn w1 /\
    m_trace m1 = m_trace m ++ map (pair t) (trace w1) /\
    settled o (m_pool m1 t) /\
    forall t1, t1 <> t -> m_pool m1 t1 = m_pool m t1.
Proof.
  intros He Hfree Hrun Hnd.
  destruct (m_pool m t) as [a|x| |k|k|d k|n k] eqn:Hp; simpl in He;
    try contradiction.
  simpl in Hrun.
  pose (m2 := mkMachine true (m_conn m) (m_trace m) (upd (m_pool m) t k)).
  assert (Hstep : machine_step m m2) by (apply step_Lock; assumption).
  destruct (@critical_run_steps k He m2 t (mkWorld true (m_conn m) []) w1 o
              (upd_same _ _ _) eq_refl eq_refl eq_refl Hrun Hnd)
    as (m1 & evs & Hst & Hfree1 & Hmu1 & Hc1 & Htr & Hmtr & Hset & Hoth).
  exists m1. cbn [trace m_trace m2 m_pool app] in *. subst evs.
  split_all; auto.
  - eapply steps_cons; eassumption.
  - intros t1 Hne. rewrite Hoth by exact Hne. apply upd_other; exact Hne.
Qed.

(** A goroutine that still waits at the gate has not moved. *)
Lemma steps_waiting (m0 m : Machine Conn A) :
  mutex_inv m0 -> machine_steps m0 m ->
  forall t, entering (m_pool m t) -> m_pool m t = m_pool m0 t.
Proof.
  intros Hinv Hsteps. induction Hsteps as [ | m1 m2 m3 Hsteps IH Hstep].
  - reflexivity.
  - pose proof (steps_inv 0 Hinv Hsteps) as Hinv2.
    pose proof (step_inv 0 Hinv2 Hstep) as Hinv3.
    intros t1 He.
    assert (Hsame : m_pool m3 t1 = m_pool m2 t1).
    { destruct Hstep as [m t k Hp Hfree | m t k Hp Hheld | m t d k r c Hp Hw
                        | m t n k r c Hp Hr]; cbn [m_pool] in *;
        (destruct (Nat.eq_dec t1 t) as [-> | Hne];
         [ | apply upd_other; exact Hne]);
        exfalso; rewrite upd_same in He;
        (destruct (inv_phase Hinv2 t) as [Hen | [Hc | Hq]]; rewrite Hp in *;
         [simpl in Hen | | simpl in Hq]); try contradiction;
        try (inversion Hc; fail).
      - exact (critical_not_entering Hen He).
      - inversion Hc as [ | k1 Hq | | ]; subst.
        destruct k; simpl in *; contradiction.
      - inversion Hc as [ | | d1 k1 Hk | ]; subst.
        exact (critical_not_entering (Hk r) He).
      - inversion Hc as [ | | | n1 k1 Hk]; subst.
        exact (critical_not_entering (Hk r) He). }
    rewrite Hsame in *. apply (IH Hinv). exact He.
Qed.

(** While a goroutine is inside the critical section every step of the
    machine is a step of that goroutine, so the next state is unique. *)
Lemma holder_steps_alone (m m1 m2 : Machine Conn A) (t : tid) :
  mutex_inv m -> critical (m_pool m t) ->
  machine_step m m1 -> machine_step m m2 ->
  m1 = m2 /\ forall t1, t1 <> t -> m_pool m1 t1 = m_pool m t1.
Proof.
  intros Hinv Hc Hs1 Hs2.
  pose proof (inv_held Hinv t Hc) as Hheld.
  assert (Hmover : forall t1,
            ~ entering (m_pool m t1) -> ~ quiet (m_pool m t1) -> t1 = t).
  { intros t1 Hne Hnq.
    destruct (inv_phase Hinv t1) as [He | [Hc1 | Hq]];
      [contradiction | exact (inv_one Hinv t1 t Hc1 Hc) | contradiction]. }
  destruct Hs1 as [m ta ka Hpa Hfa | m ta ka Hpa Hha | m ta da ka ra ca Hpa Hwa
                  | m ta na ka ra ca Hpa Hra]; [congruence | | | ];
    (assert (Hta : ta = t) by (apply Hmover; rewrite Hpa; simpl; auto));
    subst ta;
    (split; [ | intros t1 Hne; apply upd_other; exact Hne]);
    inversion Hs2 as [mb tb kb Hpb Hfb | mb tb kb Hpb Hhb
                     | mb tb db kb rb cb Hpb Hwb
                     | mb tb nb kb rb cb Hpb Hrb]; subst; try congruence;
    (assert (Htb : tb = t) by (apply Hmover; rewrite Hpb; simpl; auto));
    subst tb; rewrite Hpa in Hpb; try discriminate Hpb;
    injection Hpb as; subst.
  - reflexivity.
  - rewrite Hwa in Hwb. injection Hwb as <- <-. reflexivity.
  - rewrite Hra in Hrb. injection Hrb as <- <-. reflexivity.
Qed.

End AtomicFacts.

(** X11. Goroutines each running one [Call] on the same client, in any
    schedule.  Whenever the gate is free, a call that is still waiting and
    that terminates when run alone on the connection as it stands can be
    scheduled to completion, and it then has returned or panicked with
    exactly the result, performed exactly the operations, and left the
    connection in exactly the state of that run alone; the gate is free
    again and no other goroutine has moved. *)
Theorem Call_completes_as_alone (bound : nat) (Conn : Type)
    (conn_Read : Conn -> nat -> read_result * Conn)
    (conn_Write : Conn -> list byte -> write_result * Conn)
    (ctx : tid -> Context) (request response : tid -> Message)
    (c : Conn) (m : Machine Conn (Message * option error)) (t : tid)
    (o : outcome (Message * option error)) (w1 : World Conn) :
  steps conn_Read conn_Write
    (mkMachine false c []
       (fun t => Call bound (ctx t) (request t) (response t))) m ->
  entering (m_pool m t) -> m_mu m = false ->
  run conn_Read conn_Write (Call bound (ctx t) (request t) (response t))
      (mkWorld false (m_conn m) []) = (o, w1) ->
  o <> Diverged ->
  exists m1,
    steps conn_Read conn_Write m m1 /\
    settled o (m_pool m1 t) /\
    m_mu m1 = false /\ m_conn m1 = conn w1 /\
    m_trace m1 = m_trace m ++ map (pair t) (trace w1) /\
    forall t1, t1 <> t -> m_pool m1 t1 = m_pool m t1.
Proof.
  intros Hsteps He Hfree Hrun Hnd.
  assert (Hinv0 : mutex_inv (mkMachine false c []
            (fun t => Call bound (ctx t) (request t) (response t)))).
  { apply start_inv. intros t1. apply Call_entering. }
  pose proof (steps_waiting Hinv0 Hsteps t He) as Hp. cbn [m_pool] in Hp.
  rewrite <- Hp in Hrun.
  destruct (@entering_run_steps Conn conn_Read conn_Write _ m t w1 o
              He Hfree Hrun Hnd)
    as (m1 & Hst & Hfree1 & _ & Hc1 & Htr & Hset & Hoth).
  exists m1. split_all; auto.
Qed.

(** X12. Goroutines each running one [Call] on the same client, in any
    schedule.  While one call is between its lock and its unlock the
    scheduler has no choice: any two steps the system can take lead to the
    same state, and that step leaves every other goroutine where it was. *)
Theorem holder_has_the_only_step (bound : nat) (Conn : Type)
    (conn_Read : Conn -> nat -> read_result * Conn)
    (conn_Write : Conn -> list byte -> write_result * Conn)
    (ctx : tid -> Context) (request response : tid -> Message)
    (c : Conn) (m m1 m2 : Machine Conn (Message * option error)) (t : tid) :
  steps conn_Read conn_Write
    (mkMachine false c []
       (fun t => Call bound (ctx t) (request t) (response t))) m ->
  critical (m_pool m t) ->
  step conn_Read conn_Write m m1 -> step conn_Read conn_Write m m2 ->
  m1 = m2 /\ forall t1, t1 <> t -> m_pool m1 t1 = m_pool m t1.
Proof.
  intros Hsteps Hc Hs1 Hs2.
  assert (Hinv : mutex_inv m).
  { eapply steps_inv; try eassumption.
    apply start_inv. intros t1. apply Call_entering. }
  exact (@holder_steps_alone Conn conn_Read conn_Write _ m m1 m2 t Hinv Hc Hs1 Hs2).
Qed.

(** ** The log of the heartbeat loop *)

Section HeartbeatLog.

Variable messageMaxConsecutiveEmptyReads : nat.
Variable Conn : Type.
Variable conn_Read : Conn -> nat -> read_result * Conn.
Variable conn_Write : Conn -> list byte -> write_result * Conn.
Variable EncodeHeartbeat : Message -> Z -> Message.
Variable DecodeServers : Message -> Message * (list string + error).
Variable Store : Type.
Variable store_Set : Store -> Context -> list string -> option error * Store.
Variable closed : nat -> bool.
Variable now : nat -> Z.

Local Abbreviation iter :=
  (heartbeat_iter messageMaxConsecutiveEmptyReads conn_Read conn_Write
     EncodeHeartbeat DecodeServers store_Set closed now).
Local Abbreviation loop :=
  (heartbeat_loop messageMaxConsecutiveEmptyReads conn_Read conn_Write
     EncodeHeartbeat DecodeServers store_Set closed now).

(** What one pass adds to the log: a complete pass when the loop goes on,
    a shorter or complete last pass when it stops, and the call alone when
    the call panics or never returns. *)
Lemma iter_log (i : nat) (s : HbState Conn Store) :
  match iter i s with
  | Continue s1 => exists addresses, hb_log s1 = hb_log s ++ hb_pass addresses
  | Stop s1 => exists tail, hb_log s1 = hb_log s ++ tail /\ hb_tail tail
  | Crash _ s1 | Hang s1 => hb_log s1 = hb_log s ++ [HbCall]
  end.
Proof.
  unfold heartbeat_iter. destruct (closed i).
  - exists []. rewrite app_nil_r. split; [reflexivity | constructor].
  - destruct (run conn_Read conn_Write _ (hb_world s))
      as [[[response [e | ]] | x | | ] w]; cbn [hb_log]; try reflexivity.
    + exists [HbCall]. split; [reflexivity | constructor].
    + destruct (DecodeServers response) as [response1 [addresses | e]].
      * destruct (store_Set (hb_store s) _ addresses) as [[e | ] store1];
          cbn [hb_log]; rewrite <- !app_assoc.
        -- exists (hb_pass addresses). split; [reflexivity | constructor].
        -- exists addresses. reflexivity.
      * cbn [hb_log]. rewrite <- app_assoc.
        exists [HbCall; HbDecode]. split; [reflexivity | constructor].
Qed.

(** X13. Whatever the connection, the decoder and the store do, and for
    every number of passes, the log of the heartbeat loop is a sequence of
    complete passes (one call, one decode, one [Set], in that order)
    followed by at most one last pass that is empty, the call alone, the
    call and the decode, or complete: a [Set] is always the third
    operation of its pass, no pass holds two calls, and nothing follows a
    pass that did not complete.  A loop that is still running after [fuel]
    passes has logged exactly [fuel] complete passes. *)
Theorem heartbeat_log_shape (fuel i : nat) (s : HbState Conn Store) :
  exists sets tail,
    log_of (loop fuel i s) = hb_log s ++ concat (map hb_pass sets) ++ tail /\
    hb_tail tail /\ (length sets <= fuel)%nat /\
    (forall s1, loop fuel i s = Continue s1 ->
       tail = [] /\ length sets = fuel) /\
    (forall x s1, loop fuel i s = Crash x s1 -> tail = [HbCall]) /\
    (forall s1, loop fuel i s = Hang s1 -> tail = [HbCall]).
Proof.
  revert i s. induction fuel as [ | fuel IH]; intros i s.
  - exists [], []. cbn [heartbeat_loop log_of map concat app length].
    rewrite app_nil_r. split; [reflexivity | ]. split; [constructor | ].
    split; [lia | ]. split; [auto | ]. split; intros; discriminate.
  - cbn [heartbeat_loop]. pose proof (iter_log i s) as Hit.
    destruct (iter i s) as [s1 | s1 | x s1 | s1].
    + destruct Hit as [addresses Hlog].
      destruct (IH (S i) s1) as (sets & tail & Hl & Ht & Hn & Hc & Hp & Hh).
      exists (addresses :: sets), tail.
      rewrite Hl, Hlog. cbn [map concat length]. rewrite <- !app_assoc.
      split; [reflexivity | ]. split; [exact Ht | ]. split; [lia | ].
      split; [ | split; assumption].
      intros s2 Hs2. destruct (Hc s2 Hs2) as [-> ->]. auto.
    + destruct Hit as (tail & Hlog & Ht).
      exists [], tail. cbn [log_of map concat app length].
      split; [exact Hlog | ]. split; [exact Ht | ]. split; [lia | ].
      split; [ | split]; intros; discriminate.
    + exists [], [HbCall]. cbn [log_of map concat app length].
      split; [exact Hit | ]. split; [constructor | ]. split; [lia | ].
      split; [ | split]; intros; try discriminate; reflexivity.
    + exists [], [HbCall]. cbn [log_of map concat app length].
      split; [exact Hit | ]. split; [constructor | ]. split; [lia | ].
      split; [ | split]; intros; try discriminate; reflexivity.
Qed.

End HeartbeatLog.

(** ** The context handed to the store *)

Section HeartbeatContext.

Variable messageMaxConsecutiveEmptyReads : nat.
Variable Conn : Type.
Variable conn_Read : Conn -> nat -> read_result * Conn.
Variable conn_Write : Conn -> list byte -> write_result * Conn.
Variable EncodeHeartbeat : Message -> Z -> Message.
Variable DecodeServers : Message -> Message * (list string + error).
Variable Store : Type.
Variable store_Set1 store_Set2 :
  Store -> Context -> list string -> option error * Store.
Variable closed : nat -> bool.
Variable now : nat -> Z.

Local Abbreviation loop1 :=
  (heartbeat_loop messageMaxConsecutiveEmptyReads conn_Read conn_Write
     EncodeHeartbeat DecodeServers store_Set1 closed now).
Local Abbreviation loop2 :=
  (heartbeat_loop messageMaxConsecutiveEmptyReads conn_Read conn_Write
     EncodeHeartbeat DecodeServers store_Set2 closed now).

(** X14. [heartbeat] calls [cancel()] before it decodes the response, so
    the store never sees a live context: two stores that behave alike on
    every context that is already cancelled and whose deadline is one
    second after the time of some pass make the heartbeat loop behave
    alike, pass for pass, whatever they do on any other context. *)
Theorem heartbeat_Set_context_is_cancelled (fuel i : nat)
    (s : HbState Conn Store) :
  (forall st j addresses,
     store_Set1 st (mkContext (Some (now j + 1)) true) addresses
       = store_Set2 st (mkContext (Some (now j + 1)) true) addresses) ->
  loop1 fuel i s = loop2 fuel i s.
Proof.
  intros Hsame. revert i s. induction fuel as [ | fuel IH]; intros i s.
  - reflexivity.
  - cbn [heartbeat_loop].
    assert (Hit : heartbeat_iter messageMaxConsecutiveEmptyReads conn_Read
                    conn_Write EncodeHeartbeat DecodeServers store_Set1
                    closed now i s
                  = heartbeat_iter messageMaxConsecutiveEmptyReads conn_Read
                      conn_Write EncodeHeartbeat DecodeServers store_Set2
                      closed now i s).
    { unfold heartbeat_iter. destruct (closed i); [reflexivity | ].
      destruct (run conn_Read conn_Write _ (hb_world s)) as [o w].
      destruct o as [[response [e | ]] | x | | ]; try reflexivity.
      destruct (DecodeServers response) as [response1 [addresses | e]];
        [ | reflexivity].
      cbn [ctx_deadline]. rewrite Hsame. reflexivity. }
    rewrite Hit.
    destruct (heartbeat_iter messageMaxConsecutiveEmptyReads conn_Read
                conn_Write EncodeHeartbeat DecodeServers store_Set2
                closed now i s); try reflexivity.
    apply IH.
Qed.

End HeartbeatContext.

(** ** Closing a client *)

Section LifecycleFacts.

Variable messageMaxConsecutiveEmptyReads : nat.
Variable Conn : Type.
Variable conn_Read : Conn -> nat -> read_result * Conn.
Variable conn_Write : Conn -> list byte -> write_result * Conn.
Variable conn_Close : Conn -> option error * Conn.
Variable EncodeHeartbeat : Message -> Z -> Message.
Variable DecodeServers : Message -> Message * (list string + error).
Variable Store : Type.
Variable store_Set : Store -> Context -> list string -> option error * Store.
Variable now : nat -> Z.

(** X15. [Close] on a client whose stop channel is open (as [newClient]
    makes it) closes the connection once and returns the error of
    [conn.Close] as it is, without wrapping and without taking the gate.
    [Close] is not idempotent: every later [Close] panics on the closed
    channel and does not reach the connection again.  And a heartbeat loop
    that polls the stop channel after the [Close] stops at that poll: no
    call, no decode, no [Set], whatever passes it is allowed. *)
Theorem Close_once (c : Client Conn Store) (fuel i : nat)
    (s : HbState Conn Store) :
  closeCh_closed c = false ->
  let c1 := snd (Close conn_Close c) in
  fst (Close conn_Close c) = CloseReturned (fst (conn_Close (c_conn c))) /\
  c_conn c1 = snd (conn_Close (c_conn c)) /\
  mu_locked c1 = mu_locked c /\
  Close conn_Close c1 = (ClosePanicked, c1) /\
  Close conn_Close (snd (Close conn_Close c1)) = (ClosePanicked, c1) /\
  heartbeat_loop messageMaxConsecutiveEmptyReads conn_Read conn_Write
    EncodeHeartbeat DecodeServers store_Set (poll_closeCh c1) now
    (S fuel) i s = Stop s.
Proof.
  intros Hopen c1. unfold c1, Close. rewrite Hopen.
  destruct (conn_Close (c_conn c)) as [err conn1].
  cbn [fst snd c_conn mu_locked closeCh_closed].
  repeat split.
Qed.

End LifecycleFacts.

(** ** The further properties at concrete connections *)

(** X1 on a stream of twenty-four bytes handed out three at a time. *)
Lemma recvPeek_takes_stream_prefix_witness :
  exists evs,
    run (chunk_Read 3) accept_Write (recvPeek 100 (repeat x00 8))
        (mkWorld false (example_header ++ example_body) [])
      = (Returned (example_header, None),
         mkWorld false example_body ([] ++ evs)) /\
    Forall is_read evs /\ (length evs <= 8)%nat.
Proof.
  destruct (@recvPeek_takes_stream_prefix 100 3%nat accept_Write
              (repeat x00 8)
              (mkWorld false (example_header ++ example_body) []))
    as (evs & H).
  - lia.
  - lia.
  - unfold int_len. simpl. lia.
  - simpl. lia.
  - exists evs. exact H.
Defined.

(** X2 on a stream holding one frame of two words and one byte more. *)
Lemma recv_takes_one_frame_witness :
  exists evs,
    run (chunk_Read 3) accept_Write (recv 100 (Init 512))
        (mkWorld false (example_header ++ example_body ++ [xff]) [])
      = (Returned
           (mkMessage 2 x05 x00 0 example_header
              (mkBuffer (Some (example_body ++ repeat x00 496)) 0)
              (mkBuffer None 0),
            None),
         mkWorld false [xff] ([] ++ evs)) /\
    Forall is_read evs.
Proof.
  destruct (@recv_takes_one_frame 100 3%nat accept_Write (Init 512)
              x02 x00 x00 x00 x05 x00 x00 x00 example_body [xff]
              (repeat x00 512)
              (mkWorld false (example_header ++ example_body ++ [xff]) []))
    as (evs & H).
  - lia.
  - lia.
  - reflexivity.
  - reflexivity.
  - reflexivity.
  - apply Nat.leb_le. reflexivity.
  - reflexivity.
  - exists evs. exact H.
Defined.

(** X3 for a request of two words and a response initialised with 512
    bytes, over a pipe read four bytes at a time. *)
Lemma Call_round_trip_witness :
  exists evs,
    run (chunk_Read 4) pipe_Write
        (Call 100 (mkContext None false) example_request (Init 512))
        (mkWorld false [] [])
      = (Returned
           (mkMessage 2 x05 x00 0 example_header
              (mkBuffer (Some (example_body ++ repeat x00 496)) 0)
              (mkBuffer None 0),
            None),
         mkWorld false [] ([] ++ evs)).
Proof.
  destruct (@Call_round_trip 100 4%nat (mkContext None false) example_request
              (Init 512) x02 x00 x00 x00 x05 x00 x00 x00 example_body
              (repeat x00 512) (mkWorld false [] []))
    as (evs & H).
  - lia.
  - lia.
  - reflexivity.
  - reflexivity.
  - reflexivity.
  - reflexivity.
  - exact I.
  - reflexivity.
  - reflexivity.
  - reflexivity.
  - apply Nat.leb_le. reflexivity.
  - exists evs. exact H.
Defined.

(** X4 at a response whose first read is empty and whose second read
    reports a count of -1 together with an error. *)
Lemma Call_negative_read_panics_witness :
  exists wa evs,
    run script_Read script_Write (send (Init 16))
        (mkWorld true
           ([mkRead 0 [] None; mkRead (-1) [] (Some (ErrTransport "reset"))],
            []) [])
      = (Returned None, wa) /\
    run script_Read script_Write
        (Call 100 (mkContext None false) (Init 16) (Init 512))
        (mkWorld false
           ([mkRead 0 [] None; mkRead (-1) [] (Some (ErrTransport "reset"))],
            []) [])
      = (Panicked errNegativeRead,
         mkWorld false ([], []) (trace wa ++ evs)) /\
    length evs = 2%nat /\ Forall is_read evs.
Proof.
  pose (w0 := mkWorld false
                ([mkRead 0 [] None;
                  mkRead (-1) [] (Some (ErrTransport "reset"))],
                 ([] : list write_result)) []).
  destruct (run script_Read script_Write (send (Init 16)) (locked w0))
    as [o wa] eqn:Hsend.
  assert (Ho : o = Returned None)
    by (vm_compute in Hsend; injection Hsend as <- _; reflexivity).
  assert (Hc : conn wa = conn w0)
    by (vm_compute in Hsend; injection Hsend as _ <-; reflexivity).
  subst o.
  destruct (@Call_negative_read_panics 100 script script_Read script_Write
              (mkContext None false) (Init 16) (Init 512) w0 wa 1%nat
              ([mkRead (-1) [] (Some (ErrTransport "reset"))], [])
              ([], [])
              (mkRead (-1) [] (Some (ErrTransport "reset"))))
    as (evs & Hrun & Hlen & Hall).
  - reflexivity.
  - exact Hsend.
  - vm_compute. discriminate.
  - lia.
  - rewrite Hc. vm_compute. repeat split.
  - reflexivity.
  - simpl. lia.
  - exists wa, evs. split; [exact Hsend | ].
    split; [exact Hrun | ]. split; [exact Hlen | exact Hall].
Defined.

(** X5 at a call whose header write accepts five of the eight bytes. *)
Lemma Call_error_cause_witness :
  exists res e w1 evs,
    run script_Read script_Write
        (Call 100 (mkContext None false) (Init 16) (Init 512))
        (mkWorld false ([], [mkWrite 5 None]) [])
      = (Returned (res, Some e), w1) /\
    trace w1 = [] ++ evs /\ blames 100 evs e.
Proof.
  destruct (run script_Read script_Write
              (Call 100 (mkContext None false) (Init 16) (Init 512))
              (mkWorld false ([], [mkWrite 5 None]) []))
    as [o w1] eqn:Hrun.
  assert (Ho : exists res e, o = Returned (res, Some e)).
  { vm_compute in Hrun. injection Hrun as <- _. eexists. eexists. reflexivity. }
  destruct Ho as (res & e & ->).
  destruct (@Call_error_cause 100 script script_Read script_Write
              (mkContext None false) (Init 16) (Init 512) res e
              (mkWorld false ([], [mkWrite 5 None]) []) w1
              eq_refl eq_refl Hrun)
    as (evs & Htr & Hb).
  exists res, e, w1, evs.
  split; [reflexivity | ]. split; [exact Htr | exact Hb].
Defined.

(** X6 at a call answered by a header and sixteen bytes of body. *)
Lemma Call_keeps_buffer_sizes_witness :
  exists res err w1,
    run (chunk_Read 4) accept_Write
        (Call 100 (mkContext None false) (Init 16) (Init 512))
        (mkWorld false (example_header ++ example_body) [])
      = (Returned (res, err), w1) /\
    same_sizes res (Init 512).
Proof.
  destruct (run (chunk_Read 4) accept_Write
              (Call 100 (mkContext None false) (Init 16) (Init 512))
              (mkWorld false (example_header ++ example_body) []))
    as [o w1] eqn:Hrun.
  assert (Ho : exists res err, o = Returned (res, err)).
  { vm_compute in Hrun. injection Hrun as <- _. eexists. eexists. reflexivity. }
  destruct Ho as (res & err & ->).
  exists res, err, w1. split; [reflexivity | ].
  exact (@Call_keeps_buffer_sizes 100 (list byte) (chunk_Read 4) accept_Write
           (mkContext None false) (Init 16) (Init 512) res err
           (mkWorld false (example_header ++ example_body) []) w1
           eq_refl Hrun).
Defined.

(** X7 at a header delivered by one read. *)
Lemma recvHeader_fields_in_range_witness :
  exists res1 w1,
    run script_Read script_Write (recvHeader 100 (Init 512))
        (mkWorld false ([reads example_header], []) [])
      = (Returned (res1, None), w1) /\
    0 <= words res1 < 2 ^ 32 /\ 0 <= extra res1 < 2 ^ 16 /\
    wrap_int (wrap_int (words res1) * messageWordSize) = words res1 * 8.
Proof.
  destruct (run script_Read script_Write (recvHeader 100 (Init 512))
              (mkWorld false ([reads example_header], []) []))
    as [o w1] eqn:Hrun.
  assert (Ho : exists res1, o = Returned (res1, None)).
  { vm_compute in Hrun. injection Hrun as <- _. eexists. reflexivity. }
  destruct Ho as (res1 & ->).
  destruct (@recvHeader_fields_in_range 100 script script_Read script_Write
              (Init 512) res1
              (mkWorld false ([reads example_header], []) []) w1 Hrun)
    as (_ & _ & Hw & _ & _ & _ & Hx & Hn).
  exists res1, w1. split; [reflexivity | ].
  split; [exact Hw | ]. split; [exact Hx | exact Hn].
Defined.

(** X8 at a freshly initialised response. *)
Lemma recvBody_zero_words_witness :
  run script_Read script_Write (recvBody 100 (Init 512))
      (mkWorld false ([reads example_body], []) [])
    = (Returned (Init 512, None),
       mkWorld false ([reads example_body], []) []).
Proof.
  apply (@recvBody_zero_words 100 script script_Read script_Write (Init 512)
           (mkWorld false ([reads example_body], []) [])).
  reflexivity.
Defined.

(** X9 on the stream that hands over one byte per read. *)
Lemma recvPeek_read_bound_witness :
  exists o w1 evs,
    run ticker_Read accept_Write (recvPeek 100 (repeat x00 5))
        (mkWorld false 0%nat [])
      = (o, w1) /\
    trace w1 = [] ++ evs /\ Forall is_read evs /\
    (length evs <= 5 * 100)%nat.
Proof.
  destruct (run ticker_Read accept_Write (recvPeek 100 (repeat x00 5))
              (mkWorld false 0%nat []))
    as [o w1] eqn:Hrun.
  destruct (@recvPeek_read_bound 100 nat ticker_Read accept_Write
              (repeat x00 5) (mkWorld false 0%nat []) w1 o ticker_reader_ok)
    as (evs & Htr & Hall & Hlen).
  - unfold int_len. simpl. lia.
  - exact Hrun.
  - exists o, w1, evs. split; [reflexivity | ].
    split; [exact Htr | ]. split; [exact Hall | exact Hlen].
Defined.


(** X11 at the start, for goroutine 0 on a connection that accepts the
    request and then reports end of file. *)
Lemma Call_completes_as_alone_witness :
  exists o w1 m1,
    run script_Read script_Write
        (Call 100 (mkContext None false) (Init 16) (Init 512))
        (mkWorld false ([], []) [])
      = (o, w1) /\
    steps script_Read script_Write
      (mkMachine false (([], []) : script) []
         (fun t : tid => Call 100 (mkContext None false) (Init 16) (Init 512)))
      m1 /\
    settled o (m_pool m1 0%nat) /\ m_mu m1 = false /\
    m_conn m1 = conn w1 /\
    m_trace m1 = [] ++ map (pair 0%nat) (trace w1).
Proof.
  destruct (run script_Read script_Write
              (Call 100 (mkContext None false) (Init 16) (Init 512))
              (mkWorld false ([], []) []))
    as [o w1] eqn:Hrun.
  assert (Hnd : o <> Diverged)
    by (vm_compute in Hrun; injection Hrun as <- _; discriminate).
  destruct (@Call_completes_as_alone 100 script script_Read script_Write
              (fun _ => mkContext None false) (fun _ => Init 16)
              (fun _ => Init 512) ([], [])
              (mkMachine false (([], []) : script) []
                 (fun t : tid =>
                    Call 100 (mkContext None false) (Init 16) (Init 512)))
              0%nat o w1)
    as (m1 & Hst & Hset & Hfree & Hc & Htr & _).
  - apply steps_refl.
  - cbn [m_pool]. apply Call_entering.
  - reflexivity.
  - exact Hrun.
  - exact Hnd.
  - exists o, w1, m1. split; [reflexivity | ].
    split; [exact Hst | ]. split; [exact Hset | ].
    split; [exact Hfree | ]. split; [exact Hc | exact Htr].
Defined.

(** X12 at the state in which goroutine 0 has taken the gate: its header
    write is the only step there is. *)
Lemma holder_has_the_only_step_witness :
  exists m m1,
    steps script_Read script_Write
      (mkMachine false (([], []) : script) []
         (fun t : tid => Call 100 (mkContext None false) (Init 16) (Init 512)))
      m /\
    critical (m_pool m 0%nat) /\
    step script_Read script_Write m m1 /\
    (forall m2, step script_Read script_Write m m2 -> m1 = m2) /\
    (forall t1, t1 <> 0%nat -> m_pool m1 t1 = m_pool m t1).
Proof.
  assert (Hex : exists m,
            steps script_Read script_Write
              (mkMachine false (([], []) : script) []
                 (fun t : tid =>
                    Call 100 (mkContext None false) (Init 16) (Init 512)))
              m /\
            critical (m_pool m 0%nat) /\
            exists m1, step script_Read script_Write m m1).
  { eexists. split; [ | split].
    - eapply steps_snoc; [apply steps_refl | ].
      eapply step_Lock with (t := 0%nat); reflexivity.
    - exact (Call_entering 100 (mkContext None false) (Init 16) (Init 512)).
    - eexists. eapply step_Write with (t := 0%nat); reflexivity. }
  destruct Hex as (m & Hsteps & Hcrit & m1 & Hs1).
  exists m, m1. split; [exact Hsteps | ]. split; [exact Hcrit | ].
  split; [exact Hs1 | ]. split.
  - intros m2 Hs2.
    exact (proj1 (@holder_has_the_only_step 100 script script_Read
                    script_Write (fun _ => mkContext None false)
                    (fun _ => Init 16) (fun _ => Init 512) ([], [])
                    m m1 m2 0%nat Hsteps Hcrit Hs1 Hs2)).
  - exact (proj2 (@holder_has_the_only_step 100 script script_Read
                    script_Write (fun _ => mkContext None false)
                    (fun _ => Init 16) (fun _ => Init 512) ([], [])
                    m m1 m1 0%nat Hsteps Hcrit Hs1 Hs1)).
Defined.

(** X14 for a store that keeps every list and a store that refuses a live
    context: three passes of the heartbeat cannot tell them apart. *)
Lemma heartbeat_Set_context_is_cancelled_witness :
  heartbeat_loop 100 (chunk_Read 4) accept_Write example_Encode
    example_Decode example_Set (fun _ => false) (fun _ => 0) 3 0
    (mkHb (Init 16) (Init 512)
          (mkWorld false (example_header ++ example_body) []) [] [])
  = heartbeat_loop 100 (chunk_Read 4) accept_Write example_Encode
      example_Decode strict_Set (fun _ => false) (fun _ => 0) 3 0
      (mkHb (Init 16) (Init 512)
            (mkWorld false (example_header ++ example_body) []) [] []).
Proof.
  apply (@heartbeat_Set_context_is_cancelled 100 (list byte) (chunk_Read 4)
           accept_Write example_Encode example_Decode (list (list string))
           example_Set strict_Set (fun _ => false) (fun _ => 0) 3%nat 0%nat).
  intros st j addresses. reflexivity.
Defined.

(** X15 for a client just made by [newClient]. *)
Lemma Close_once_witness :
  fst (Close drop_Close
         (newClient [x01] "10.0.0.1:9000" ([] : list (list string))))
    = CloseReturned None /\
  fst (Close drop_Close
         (snd (Close drop_Close
                 (newClient [x01] "10.0.0.1:9000" ([] : list (list string))))))
    = ClosePanicked /\
  heartbeat_loop 100 (chunk_Read 4) accept_Write example_Encode
    example_Decode example_Set
    (poll_closeCh
       (snd (Close drop_Close
               (newClient [x01] "10.0.0.1:9000" ([] : list (list string))))))
    (fun _ => 0) 3 0
    (mkHb (Init 16) (Init 512)
          (mkWorld false (example_header ++ example_body) []) [] [])
  = Stop (mkHb (Init 16) (Init 512)
               (mkWorld false (example_header ++ example_body) []) [] []).
Proof.
  pose proof (@Close_once 100 (list byte) (chunk_Read 4) accept_Write
                drop_Close example_Encode example_Decode
                (list (list string)) example_Set (fun _ => 0)
                (newClient [x01] "10.0.0.1:9000" ([] : list (list string)))
                2%nat 0%nat
                (mkHb (Init 16) (Init 512)
                      (mkWorld false (example_header ++ example_body) [])
                      [] [])
                eq_refl) as H.
  cbv zeta in H. destruct H as (H1 & _ & _ & H4 & _ & H6).
  split; [exact H1 | ]. split; [rewrite H4; reflexivity | exact H6].
Defined.
